(** * server.py: schema index, default query, neighbour lookup, raw queries

    A shallow embedding of [src/server/server.py].  The Flask handlers read
    and write five module-level globals; the database is an external
    collaborator.  Globals are threaded explicitly, the database is an
    oracle ([world]) and every handler returns the response together with
    the globals it leaves behind and the trace of database calls it made. *)

From Stdlib Require Import String List Bool Arith ZArith Lia DecimalString DecimalNat.
From stdpp Require Import base gmap strings.
Import ListNotations.
Open Scope string_scope.
Open Scope list_scope.

(** ** Python dictionaries

    Since Python 3.7 a [dict] iterates in insertion order and
    [next(iter(d))] is the first key ever inserted; an association list with
    append-at-the-end insertion keeps exactly that order. *)

Definition dict (V : Type) : Type := list (string * V).

Section Dict.
Context {V : Type}.

(** [d[k]], with [None] standing for [KeyError]. *)
Fixpoint dict_get (k : string) (d : dict V) : option V :=
  match d with
  | [] => None
  | (k', v) :: d' => if String.eqb k k' then Some v else dict_get k d'
  end.

(** [k in d] *)
Definition dict_mem (k : string) (d : dict V) : bool :=
  match dict_get k d with Some _ => true | None => false end.

(** [d[k] = v]: an existing key keeps its position, a new key goes last. *)
Fixpoint dict_set (k : string) (v : V) (d : dict V) : dict V :=
  match d with
  | [] => [(k, v)]
  | (k', v') :: d' =>
      if String.eqb k k' then (k, v) :: d' else (k', v') :: dict_set k v d'
  end.

(** [next(iter(d))] *)
Definition first_key (d : dict V) : option string :=
  match d with [] => None | (k, _) :: _ => Some k end.
End Dict.

(** ** Data model *)

(** Edge descriptors: [{"relation": r, "destination": d}] in
    [outgoing_relations], [{"relation": r, "source": s}] in
    [incoming_relations]. *)
Record out_rel := OutRel { out_relation : string; out_destination : string }.
Record in_rel := InRel { in_relation : string; in_source : string }.

(** The handle returned by [duckdb.connect]. *)
Inductive connection := Conn (id : nat).

(** The module-level globals of lines 18-22. *)
Record globals := Globals {
  conn : option connection;
  node_types : gset string;
  outgoing_relations : dict (list out_rel);
  incoming_relations : dict (list in_rel);
  graph_name : string
}.

Definition initial_globals : globals :=
  {| conn := None; node_types := ∅; outgoing_relations := [];
     incoming_relations := []; graph_name := "" |}.

(** A one-column catalog row [(x,)]; [x] is a string or [None]. *)
Definition cell := option string.
Definition catalog_row : Type := cell * cell * cell.

(** [zip(source_result, destination_result, relation_result)]: stops at the
    shortest list. *)
Fixpoint zip3 (ss ds rs : list cell) : list catalog_row :=
  match ss, ds, rs with
  | s :: ss', d :: ds', r :: rs' => (s, d, r) :: zip3 ss' ds' rs'
  | _, _, _ => []
  end.

(** ** Schema index builder (lines 106-141) *)

(** The duplicate scans of lines 117-121 and 131-135. *)
Definition same_out (r d : string) (existing : out_rel) : bool :=
  String.eqb (out_relation existing) r && String.eqb (out_destination existing) d.
Definition same_in (r s : string) (existing : in_rel) : bool :=
  String.eqb (in_relation existing) r && String.eqb (in_source existing) s.

(** Lines 113-124. *)
Definition add_outgoing (s d r : string) (out : dict (list out_rel))
  : dict (list out_rel) :=
  match dict_get s out with
  | None => dict_set s [OutRel r d] out
  | Some existing =>
      let duplicate := existsb (same_out r d) existing in
      if duplicate then out else dict_set s (existing ++ [OutRel r d]) out
  end.

(** Lines 127-138. *)
Definition add_incoming (s d r : string) (inc : dict (list in_rel))
  : dict (list in_rel) :=
  match dict_get d inc with
  | None => dict_set d [InRel r s] inc
  | Some existing =>
      let duplicate := existsb (same_in r s) existing in
      if duplicate then inc else dict_set d (existing ++ [InRel r s]) inc
  end.

(** The body of the [for] loop of line 110 for one zipped row. *)
Definition index_row (row : catalog_row) (g : globals) : globals :=
  match row with
  | (Some s, Some d, Some r) =>
      {| conn := conn g;
         node_types := {[d]} ∪ ({[s]} ∪ node_types g);
         outgoing_relations := add_outgoing s d r (outgoing_relations g);
         incoming_relations := add_incoming s d r (incoming_relations g);
         graph_name := graph_name g |}
  | _ => g
  end.

(** The whole loop. *)
Definition populate (rows : list catalog_row) (g : globals) : globals :=
  fold_left (fun g row => index_row row g) rows g.

(** Lines 107-108: both dictionaries are cleared, [node_types] is not. *)
Definition clear_relations (g : globals) : globals :=
  {| conn := conn g; node_types := node_types g; outgoing_relations := [];
     incoming_relations := []; graph_name := graph_name g |}.

(** Lines 106-141 together. *)
Definition build_index (ss ds rs : list cell) (g : globals) : globals :=
  populate (zip3 ss ds rs) (clear_relations g).

(** A row the guard of line 111 lets through. *)
Definition row_complete (row : catalog_row) : bool :=
  match row with (Some _, Some _, Some _) => true | _ => false end.

(** ** The database as an oracle *)

(** A DuckDB cell as far as the handlers look at it: they only move values
    and hand them to [jsonify].  [VOther] is a cell the JSON provider
    refuses, with the name of the Python type it reports: [bytes] for a
    BLOB, [timedelta] for an INTERVAL, [time] for a TIME. *)
Inductive value :=
| VNull
| VInt (z : Z)
| VStr (s : string)
| VBool (b : bool)
| VOther (type_name : string).
Definition row : Type := list value.

(** What [db_conn.execute(q)] leaves behind: the rows of [fetchall()] and
    [db_conn.description] reduced to the column names [col[0]] ([None] when
    the statement has no result schema). *)
Record query_result := QueryResult {
  fetchall : list row;
  description : option (list string)
}.

(** An exception, identified with [str(e)]. *)
Definition exn : Type := string.

(** How far one pass through the [try] block of lines 61-145 gets. *)
Inductive attempt_outcome :=
| ConnectRaises (e : exn)
    (** [duckdb.connect] raises: [conn] is not rebound. *)
| SetupRaises (c : connection) (e : exn)
    (** [conn] is bound (line 67); extension loading, function
        registration, the test query or the graph query raises. *)
| CatalogRaises (c : connection) (graph_result : list cell) (e : exn)
    (** lines 92-94 ran; one of the three catalog queries raises. *)
| AttemptOk (c : connection)
    (graph_result source_result destination_result relation_result : list cell).

(** A value parsed by [request.json].  A float is kept as far as the
    handlers look at it: whether it is zero, and its [str()]. *)
#[warnings="-register-all"]
Inductive json :=
| JNull
| JBool (b : bool)
| JInt (z : Z)
| JFloat (is_zero : bool) (text : string)
| JStr (s : string)
| JList (items : list json)
| JDict (fields : list (string * json)).

(** What the handlers take from outside: the database, and what the Python
    runtime answers for values that are not strings. *)
Record world := World {
  attempts : nat -> attempt_outcome;       (** by attempt number *)
  execute : string -> exn + query_result;  (** [db_conn.execute(q)], [q] a [str] *)
  execute_invalid : json -> exn;
    (** [db_conn.execute(v)] for [v] not a [str]: the exception raised *)
  hash_error : json -> exn;
    (** [hash(v)] for a list or a dict: the [TypeError] *)
  container_str : json -> string
    (** [str(v)] for a list or a dict *)
}.

Inductive db_event :=
| Connect (attempt : nat)
| Execute (q : string).

(** ** Computations over the globals that may raise *)

Inductive outcome (A : Type) :=
| Returned (a : A)
| Raised (e : exn).
Arguments Returned {A} a.
Arguments Raised {A} e.

Definition M (A : Type) : Type := globals -> outcome A * globals * list db_event.

Definition ret {A} (a : A) : M A := fun g => (Returned a, g, []).
Definition raise {A} (e : exn) : M A := fun g => (Raised e, g, []).
Definition bind {A B} (m : M A) (f : A -> M B) : M B :=
  fun g =>
    match m g with
    | (Returned a, g1, t1) => let '(r, g2, t2) := f a g1 in (r, g2, t1 ++ t2)
    | (Raised e, g1, t1) => (Raised e, g1, t1)
    end.
(** [try: m except Exception as e: h e] *)
Definition catch {A} (m : M A) (h : exn -> M A) : M A :=
  fun g =>
    match m g with
    | (Returned a, g1, t1) => (Returned a, g1, t1)
    | (Raised e, g1, t1) => let '(r, g2, t2) := h e g1 in (r, g2, t1 ++ t2)
    end.
Definition read : M globals := fun g => (Returned g, g, []).
Definition modify (f : globals -> globals) : M unit := fun g => (Returned tt, f g, []).
Definition emit (ev : db_event) : M unit := fun g => (Returned tt, g, [ev]).

Notation "x <- m ;; k" := (bind m (fun x => k))
  (at level 100, m at next level, right associativity).
Notation "m ;;; k" := (bind m (fun _ => k))
  (at level 100, right associativity).

(** [db_conn.execute(q).fetchall()] *)
Definition db_execute (w : world) (q : string) : M query_result :=
  emit (Execute q) ;;;
  match execute w q with
  | inl e => raise e
  | inr r => ret r
  end.

(** ** Connection lifecycle (lines 48-153) *)

Definition set_conn (c : connection) (g : globals) : globals :=
  {| conn := Some c; node_types := node_types g;
     outgoing_relations := outgoing_relations g;
     incoming_relations := incoming_relations g; graph_name := graph_name g |}.

Definition set_graph_name (n : string) (g : globals) : globals :=
  {| conn := conn g; node_types := node_types g;
     outgoing_relations := outgoing_relations g;
     incoming_relations := incoming_relations g; graph_name := n |}.

(** Lines 92-94: the last non-null row wins, no row leaves the name alone. *)
Definition read_graph_name (graph_result : list cell) (g : globals) : globals :=
  fold_left (fun g graph_r =>
               match graph_r with Some n => set_graph_name n g | None => g end)
            graph_result g.

(** One pass through the [try] block. *)
Definition run_attempt (o : attempt_outcome) : M connection :=
  match o with
  | ConnectRaises e => raise e
  | SetupRaises c e => modify (set_conn c) ;;; raise e
  | CatalogRaises c graph_result e =>
      modify (set_conn c) ;;; modify (read_graph_name graph_result) ;;; raise e
  | AttemptOk c graph_result ss ds rs =>
      modify (set_conn c) ;;;
      modify (read_graph_name graph_result) ;;;
      modify (build_index ss ds rs) ;;;
      ret c   (* [return conn], the global bound at line 67 *)
  end.

Definition max_attempts : nat := 3.

(** The [for attempt in range(max_attempts)] loop; [retries] is
    [max_attempts - 1 - attempt], so [retries = 0] is the branch of line 151
    that re-raises.  The two-second sleep before a retry leaves no trace. *)
Fixpoint attempt_loop (w : world) (attempt retries : nat) : M connection :=
  emit (Connect attempt) ;;;
  catch (run_attempt (attempts w attempt))
        (fun e => match retries with
                  | 0 => raise e
                  | S retries' => attempt_loop w (S attempt) retries'
                  end).

Definition initialize_db (w : world) : M connection :=
  g <- read ;;
  match conn g with
  | Some c => ret c
  | None => attempt_loop w 0 (max_attempts - 1)
  end.

(** ** Requests and responses *)

Definition is_empty {A} (l : list A) : bool :=
  match l with [] => true | _ => false end.

(** What [request.json] yields: an exception (no JSON body, a content type
    that is not JSON, malformed JSON) or the parsed value. *)
Inductive request :=
| BodyRaises (e : exn)
| Body (v : json).

(** A parsed JSON object: a Python [dict] with [str] keys. *)
Definition json_obj : Type := dict json.

(** A request whose body is the object [data]. *)
Definition obj (data : json_obj) : request := Body (JDict data).

(** [type(v).__name__] *)
Definition type_name (v : json) : string :=
  match v with
  | JNull => "NoneType"
  | JBool _ => "bool"
  | JInt _ => "int"
  | JFloat _ _ => "float"
  | JStr _ => "str"
  | JList _ => "list"
  | JDict _ => "dict"
  end.

(** [data.get(k)]: [None] for an absent key and for [null] alike. *)
Definition data_get (k : string) (data : json_obj) : json :=
  match dict_get k data with Some v => v | None => JNull end.

(** [data.get(k, default)]: the default only replaces an absent key. *)
Definition data_get_default (k default : string) (data : json_obj) : json :=
  match dict_get k data with Some v => v | None => JStr default end.

(** Python truthiness. *)
Definition truthy (v : json) : bool :=
  match v with
  | JNull => false
  | JBool b => b
  | JInt z => negb (Z.eqb z 0)
  | JFloat is_zero _ => negb is_zero
  | JStr s => negb (String.eqb s "")
  | JList items => negb (is_empty items)
  | JDict fields => negb (is_empty fields)
  end.

(** [x in [...]] against string literals: only an equal [str] is in. *)
Definition json_in (v : json) (l : list string) : bool :=
  match v with JStr s => existsb (String.eqb s) l | _ => false end.

(** [a != v] for a string [a]. *)
Definition str_ne (a : string) (v : json) : bool :=
  match v with JStr s => negb (String.eqb a s) | _ => true end.

(** Lists and dicts cannot be hashed. *)
Definition unhashable (v : json) : bool :=
  match v with JList _ | JDict _ => true | _ => false end.

(** [f"{i}"] for a non-negative [int]. *)
Definition str_of_nat (i : nat) : string :=
  NilEmpty.string_of_uint (Nat.to_uint i).

(** [f"{z}"] for an [int]. *)
Definition str_of_int (z : Z) : string :=
  match z with
  | Z0 => str_of_nat 0
  | Zpos p => str_of_nat (Pos.to_nat p)
  | Zneg p => "-" +:+ str_of_nat (Pos.to_nat p)
  end.

(** [f"{v}"] *)
Definition py_str (w : world) (v : json) : string :=
  match v with
  | JNull => "None"
  | JBool true => "True"
  | JBool false => "False"
  | JInt z => str_of_int z
  | JFloat _ text => text
  | JStr s => s
  | JList _ | JDict _ => container_str w v
  end.

(** One element of [result_dicts] in [get_neighbors]; an outgoing group has
    the key ["destination"], an incoming one the key ["source"]. *)
Record neighbor_entry := NeighborEntry {
  ne_relation : string;
  ne_destination : option string;
  ne_source : option string;
  ne_direction : string;
  ne_results : list row
}.

(** The JSON bodies the handlers pass to [jsonify]. *)
Inductive body :=
| results_rows (l : list (dict value))
| results_labels (l : list string)
| results_neighbors (l : list neighbor_entry)
| query_body (q : string)
| error (msg : string).

Record response := Response { payload : body; status : nat }.

(** A handler always answers: the outermost [except Exception] turns what is
    still raised into a 500. *)
Definition handler : Type := globals -> response * globals * list db_event.

Definition respond (m : M response) (h : exn -> response) : handler :=
  fun g =>
    match m g with
    | (Returned r, g1, t1) => (r, g1, t1)
    | (Raised e, g1, t1) => (h e, g1, t1)
    end.

Definition server_error (e : exn) : response :=
  Response (error ("Server error: " +:+ e)) 500.

Definition execution_error {A} (k : response -> M A) (e : exn) : M A :=
  k (Response (error ("Error executing query: " +:+ e)) 500).

(** [data = request.json] followed by the first [data.get(...)] (lines
    158-159 and 254-255): only a [dict] has a [get]. *)
Definition request_data (r : request) : M json_obj :=
  match r with
  | BodyRaises e => raise e
  | Body (JDict data) => ret data
  | Body v => raise ("'" +:+ type_name v +:+ "' object has no attribute 'get'")
  end.

(** The type the JSON provider complains about, if it refuses the cell. *)
Definition refused (v : value) : option string :=
  match v with VOther type_name => Some type_name | _ => None end.

(** The [TypeError] of the provider's [default]. *)
Definition not_serializable (type_name : string) : exn :=
  "Object of type " +:+ type_name +:+ " is not JSON serializable".

(** Serialisation stops at the first value it cannot write. *)
Fixpoint first_refused (cells : list value) : option string :=
  match cells with
  | [] => None
  | v :: cells' =>
      match refused v with
      | Some type_name => Some type_name
      | None => first_refused cells'
      end
  end.

(** The provider writes the items of a dict sorted by key ([sort_keys] is
    on by default); keys are compared code point by code point, which for
    UTF-8 text is byte by byte. *)
Fixpoint insert_item {V} (kv : string * V) (items : list (string * V))
  : list (string * V) :=
  match items with
  | [] => [kv]
  | kv' :: items' =>
      if String.leb (fst kv) (fst kv') then kv :: items
      else kv' :: insert_item kv items'
  end.

Definition sorted_items {V} (d : dict V) : list (string * V) :=
  fold_right insert_item [] d.

(** The cells of [{'results': result_dicts}] in the order they are written:
    row dictionaries in list order, each by sorted key. *)
Definition rows_cells (result_dicts : list (dict value)) : list value :=
  concat (map (fun row_dict => map snd (sorted_items row_dict)) result_dicts).

(** [jsonify({'results': result_dicts})] at line 186 *)
Definition jsonify_rows (result_dicts : list (dict value)) : M response :=
  match first_refused (rows_cells result_dicts) with
  | None => ret (Response (results_rows result_dicts) 200)
  | Some type_name => raise (not_serializable type_name)
  end.

(** The same for the groups of [get_neighbors]: of the keys of a group only
    ["results"] holds cells, a list of rows. *)
Definition groups_cells (result_dicts : list neighbor_entry) : list value :=
  concat (map (fun e => concat (ne_results e)) result_dicts).

(** [jsonify({'results': result_dicts})] at line 319 *)
Definition jsonify_neighbors (result_dicts : list neighbor_entry) : M response :=
  match first_refused (groups_cells result_dicts) with
  | None => ret (Response (results_neighbors result_dicts) 200)
  | Some type_name => raise (not_serializable type_name)
  end.

(** ** POST /api/query (lines 155-193) *)

(** Line 182 *)
Definition col_name (column_names : list string) (i : nat) : string :=
  match nth_error column_names i with
  | Some n => n
  | None => "col" +:+ str_of_nat i
  end.

(** Lines 181-183: [for i, value in enumerate(row)], from position [i]. *)
Fixpoint fill_row (column_names : list string) (i : nat) (r : row)
    (row_dict : dict value) : dict value :=
  match r with
  | [] => row_dict
  | v :: r' =>
      fill_row column_names (S i) r' (dict_set (col_name column_names i) v row_dict)
  end.

(** Lines 178-184 *)
Definition to_result_dicts (column_names : list string) (results : list row)
  : list (dict value) :=
  map (fun r => fill_row column_names 0 r []) results.

(** Line 175: a [None] or empty description gives no names. *)
Definition column_names_of (r : query_result) : list string :=
  match description r with
  | Some cols => cols
  | None => []
  end.

(** [db_conn.execute(query).fetchall()] for whatever the request holds. *)
Definition db_execute_value (w : world) (query : json) : M query_result :=
  match query with
  | JStr q => db_execute w q
  | _ => raise (execute_invalid w query)
  end.

Definition execute_query (w : world) (r : request) : handler :=
  respond
    (data <- request_data r ;;
     let query := data_get "query" data in
     if negb (truthy query) then ret (Response (error "Query is required") 400)
     else
       db_conn <- initialize_db w ;;
       catch
         (results <- db_execute_value w query ;;
          jsonify_rows (to_result_dicts (column_names_of results) (fetchall results)))
         (execution_error ret))
    server_error.

(** ** POST /api/node-types (lines 196-204) *)

Definition get_node_types (w : world) : handler :=
  respond
    (db_conn <- initialize_db w ;;
     g <- read ;;
     ret (Response (results_labels (elements (node_types g))) 200))
    server_error.

(** ** GET /api/default-query (lines 206-245) *)

(** Lines 226 and 235 *)
Definition default_query_text (graph source_label rel_type dest_label : string)
  : string :=
  "FROM GRAPH_TABLE (" +:+ graph +:+ " MATCH (a:" +:+ source_label +:+ ")-[n:"
    +:+ rel_type +:+ "]->(b:" +:+ dest_label +:+ ") COLUMNS (a, n, b)) LIMIT 5".

(** [l[0]]; in [get_default_query] the list is [d[next(iter(d))]], the value
    stored under the first key of the dictionary. *)
Definition first_item {A} (l : list A) : M A :=
  match l with
  | x :: _ => ret x
  | [] => raise "list index out of range"
  end.

Definition get_default_query (w : world) : handler :=
  respond
    (db_conn <- initialize_db w ;;
     g <- read ;;
     if String.eqb (graph_name g) ""
        || (is_empty (outgoing_relations g) && is_empty (incoming_relations g))
     then ret (Response (error "No graph structure available") 500)
     else
       default_query <-
         match outgoing_relations g with
         | (source_label, relations) :: _ =>
             relation <- first_item relations ;;
             ret (Some (default_query_text (graph_name g) source_label
                          (out_relation relation) (out_destination relation)))
         | [] =>
             match incoming_relations g with
             | (dest_label, relations) :: _ =>
                 relation <- first_item relations ;;
                 ret (Some (default_query_text (graph_name g) (in_source relation)
                              (in_relation relation) dest_label))
             | [] => ret None
             end
         end ;;
       match default_query with
       | Some q =>
           if String.eqb q "" then
             ret (Response (error "Could not generate default query") 500)
           else ret (Response (query_body q) 200)
       | None => ret (Response (error "Could not generate default query") 500)
       end)
    server_error.

(** ** POST /api/neighbors (lines 251-325) *)

Definition nl : string := String (Ascii.ascii_of_nat 10) "".
Fixpoint spaces (n : nat) : string :=
  match n with 0 => "" | S n' => " " +:+ spaces n' end.

(** Lines 281-286 *)
Definition outgoing_query (graph node_label node_id relation destination : string)
  : string :=
  "FROM GRAPH_TABLE (" +:+ graph +:+ nl
    +:+ spaces 32 +:+ "MATCH" +:+ nl
    +:+ spaces 36 +:+ "(a:" +:+ node_label +:+ " WHERE a.id = '" +:+ node_id
    +:+ "')-[n:" +:+ relation +:+ "]->(b:" +:+ destination +:+ ")" +:+ nl
    +:+ spaces 32 +:+ "COLUMNS (b)" +:+ nl
    +:+ spaces 32 +:+ ")" +:+ nl
    +:+ spaces 28.

(** Lines 304-309 *)
Definition incoming_query (graph node_label node_id relation source : string)
  : string :=
  "FROM GRAPH_TABLE (" +:+ graph +:+ nl
    +:+ spaces 32 +:+ "MATCH" +:+ nl
    +:+ spaces 36 +:+ "(a:" +:+ source +:+ ")-[n:" +:+ relation +:+ "]->(b:"
    +:+ node_label +:+ " WHERE b.id = '" +:+ node_id +:+ "')" +:+ nl
    +:+ spaces 32 +:+ "COLUMNS (a)" +:+ nl
    +:+ spaces 32 +:+ ")" +:+ nl
    +:+ spaces 28.

(** Lines 277 and 300: [relationship_type and r_d['relation'] != relationship_type] *)
Definition filtered_out (relationship_type : json) (relation : string) : bool :=
  truthy relationship_type && str_ne relation relationship_type.

(** Lines 275-294: the loop over [outgoing_relations[node_label]], appending
    to [result_dicts]. *)
Fixpoint outgoing_loop (w : world) (node_label node_id relationship_type : json)
    (rels : list out_rel) (result_dicts : list neighbor_entry)
  : M (list neighbor_entry) :=
  match rels with
  | [] => ret result_dicts
  | r_d :: rels' =>
      if filtered_out relationship_type (out_relation r_d) then
        outgoing_loop w node_label node_id relationship_type rels' result_dicts
      else
        g <- read ;;
        results <- db_execute w
                     (outgoing_query (graph_name g) (py_str w node_label)
                        (py_str w node_id) (out_relation r_d) (out_destination r_d)) ;;
        outgoing_loop w node_label node_id relationship_type rels'
          (result_dicts ++
             [{| ne_relation := out_relation r_d;
                 ne_destination := Some (out_destination r_d);
                 ne_source := None;
                 ne_direction := "outgoing";
                 ne_results := fetchall results |}])
  end.

(** Lines 298-317 *)
Fixpoint incoming_loop (w : world) (node_label node_id relationship_type : json)
    (rels : list in_rel) (result_dicts : list neighbor_entry)
  : M (list neighbor_entry) :=
  match rels with
  | [] => ret result_dicts
  | r_d :: rels' =>
      if filtered_out relationship_type (in_relation r_d) then
        incoming_loop w node_label node_id relationship_type rels' result_dicts
      else
        g <- read ;;
        results <- db_execute w
                     (incoming_query (graph_name g) (py_str w node_label)
                        (py_str w node_id) (in_relation r_d) (in_source r_d)) ;;
        incoming_loop w node_label node_id relationship_type rels'
          (result_dicts ++
             [{| ne_relation := in_relation r_d;
                 ne_destination := None;
                 ne_source := Some (in_source r_d);
                 ne_direction := "incoming";
                 ne_results := fetchall results |}])
  end.

(** [d[k]] guarded by [k in d], for a key read from the request: only a
    [str] can be a key of the maps. *)
Definition relations_of {V} (node_label : json) (d : dict (list V)) : option (list V) :=
  match node_label with
  | JStr k => dict_get k d
  | _ => None
  end.

(** The guards of lines 274 and 297,
    [direction in directions and node_label in d]: the second operand is
    only evaluated when the first holds, and hashing a list or a dict for
    the lookup raises. *)
Definition guarded_relations {V} (w : world) (node_label direction : json)
    (directions : list string) (d : dict (list V)) : M (option (list V)) :=
  if json_in direction directions then
    if unhashable node_label then raise (hash_error w node_label)
    else ret (relations_of node_label d)
  else ret None.

(** Lines 271-319: the body of the inner [try]. *)
Definition find_neighbors (w : world)
    (node_label node_id direction relationship_type : json) : M response :=
  g <- read ;;
  rels <- guarded_relations w node_label direction ["both"; "outgoing"]
            (outgoing_relations g) ;;
  result_dicts <-
    match rels with
    | Some rels => outgoing_loop w node_label node_id relationship_type rels []
    | None => ret []
    end ;;
  rels <- guarded_relations w node_label direction ["both"; "incoming"]
            (incoming_relations g) ;;
  result_dicts <-
    match rels with
    | Some rels =>
        incoming_loop w node_label node_id relationship_type rels result_dicts
    | None => ret result_dicts
    end ;;
  jsonify_neighbors result_dicts.

Definition get_neighbors (w : world) (r : request) : handler :=
  respond
    (data <- request_data r ;;
     let node_label := data_get "label" data in
     let node_id := data_get "id" data in
     let direction := data_get_default "direction" "both" data in
     let relationship_type := data_get "relationshipType" data in
     if negb (truthy node_label) || negb (truthy node_id) then
       ret (Response (error "node_label and node_id are required") 400)
     else
       db_conn <- initialize_db w ;;
       catch (find_neighbors w node_label node_id direction relationship_type)
             (execution_error ret))
    server_error.

(** * Vocabulary of the statements *)

(** The scan-then-append of lines 113-124 and 127-138 over any dictionary
    of lists: [same] is the scan test, [x] the element to append. *)
Definition add_once {A} (same : A -> bool) (x : A) (k : string)
    (m : dict (list A)) : dict (list A) :=
  match dict_get k m with
  | None => dict_set k [x] m
  | Some existing =>
      if existsb same existing then m else dict_set k (existing ++ [x]) m
  end.

(** Every stored list holds at most one element satisfying [P]. *)
Definition at_most_once {A} (P : A -> bool) (m : dict (list A)) : Prop :=
  forall k l, dict_get k m = Some l -> length (List.filter P l) <= 1.

(** [{relation: r, destination: d}] is in [outgoing_relations[s]], and the
    mirror image for [incoming_relations[d]]. *)
Definition has_outgoing (g : globals) (s r d : string) : Prop :=
  exists l, dict_get s (outgoing_relations g) = Some l /\ In (OutRel r d) l.
Definition has_incoming (g : globals) (d r s : string) : Prop :=
  exists l, dict_get d (incoming_relations g) = Some l /\ In (InRel r s) l.
(** Descriptors are equal when both fields are. *)
Definition out_rel_eq_dec (a b : out_rel) : {a = b} + {a <> b}.
Proof. decide equality; apply String.string_dec. Defined.
Definition in_rel_eq_dec (a b : in_rel) : {a = b} + {a <> b}.
Proof. decide equality; apply String.string_dec. Defined.
(** The descriptor [{relation: r, destination: d}] occurs exactly once in
    [outgoing_relations[s]], and the mirror image. *)
Definition one_outgoing (g : globals) (s r d : string) : Prop :=
  exists l, dict_get s (outgoing_relations g) = Some l
            /\ count_occ out_rel_eq_dec l (OutRel r d) = 1.
Definition one_incoming (g : globals) (d r s : string) : Prop :=
  exists l, dict_get d (incoming_relations g) = Some l
            /\ count_occ in_rel_eq_dec l (InRel r s) = 1.
(** No list repeats a descriptor and no map repeats a key. *)
Definition index_deduplicated (g : globals) : Prop :=
  (forall r d, at_most_once (same_out r d) (outgoing_relations g))
  /\ (forall r s, at_most_once (same_in r s) (incoming_relations g))
  /\ List.NoDup (map fst (outgoing_relations g))
  /\ List.NoDup (map fst (incoming_relations g)).

(** A query to run and the group its rows go into. *)
Definition planned : Type := string * (list row -> neighbor_entry).

(** The queries of the loop of lines 275-294, resp. 298-317, in order. *)
Definition outgoing_plan (w : world) (graph : string)
    (node_label node_id relationship_type : json) (rels : list out_rel)
  : list planned :=
  map (fun r_d =>
         (outgoing_query graph (py_str w node_label) (py_str w node_id)
            (out_relation r_d) (out_destination r_d),
          fun rows => NeighborEntry (out_relation r_d) (Some (out_destination r_d))
                        None "outgoing" rows))
      (List.filter (fun r_d => negb (filtered_out relationship_type (out_relation r_d)))
                   rels).

Definition incoming_plan (w : world) (graph : string)
    (node_label node_id relationship_type : json) (rels : list in_rel)
  : list planned :=
  map (fun r_d =>
         (incoming_query graph (py_str w node_label) (py_str w node_id)
            (in_relation r_d) (in_source r_d),
          fun rows => NeighborEntry (in_relation r_d) None (Some (in_source r_d))
                        "incoming" rows))
      (List.filter (fun r_d => negb (filtered_out relationship_type (in_relation r_d)))
                   rels).

(** The same behind the guards of lines 274 and 297. *)
Definition outgoing_part (w : world) (g : globals)
    (node_label node_id direction relationship_type : json) : list planned :=
  match (if json_in direction ["both"; "outgoing"]
         then relations_of node_label (outgoing_relations g) else None) with
  | Some rels => outgoing_plan w (graph_name g) node_label node_id relationship_type rels
  | None => []
  end.

Definition incoming_part (w : world) (g : globals)
    (node_label node_id direction relationship_type : json) : list planned :=
  match (if json_in direction ["both"; "incoming"]
         then relations_of node_label (incoming_relations g) else None) with
  | Some rels => incoming_plan w (graph_name g) node_label node_id relationship_type rels
  | None => []
  end.

(** Run the planned queries in order, appending one group per query; the
    first error ends the run. *)
Fixpoint run_plan (w : world) (plan : list planned) (acc : list neighbor_entry)
  : outcome (list neighbor_entry) * list db_event :=
  match plan with
  | [] => (Returned acc, [])
  | (q, group) :: plan' =>
      match execute w q with
      | inl e => (Raised e, [Execute q])
      | inr r =>
          let '(o, t) := run_plan w plan' (acc ++ [group (fetchall r)]) in
          (o, Execute q :: t)
      end
  end.

(** Globals after one pass through the [try] block. *)
Definition after_attempt (o : attempt_outcome) (g : globals) : globals :=
  match o with
  | ConnectRaises _ => g
  | SetupRaises c _ => set_conn c g
  | CatalogRaises c graph_result _ => read_graph_name graph_result (set_conn c g)
  | AttemptOk c graph_result ss ds rs =>
      build_index ss ds rs (read_graph_name graph_result (set_conn c g))
  end.

(** Whether that pass returned the connection or raised. *)
Definition attempt_result (o : attempt_outcome) : outcome connection :=
  match o with
  | ConnectRaises e | SetupRaises _ e | CatalogRaises _ _ e => Raised e
  | AttemptOk c _ _ _ _ => Returned c
  end.

(** The events [initialize_db] can leave in the trace. *)
Definition is_connect (ev : db_event) : Prop :=
  match ev with Connect _ => True | Execute _ => False end.

(** The answer of line 322. *)
Definition execution_failed (e : exn) : response :=
  Response (error ("Error executing query: " +:+ e)) 500.

(** The two run results of a request, outgoing part first. *)
Definition run_parts (w : world) (p_out p_in : list planned)
  : outcome (list neighbor_entry) * list db_event :=
  match run_plan w p_out [] with
  | (Raised e, t1) => (Raised e, t1)
  | (Returned out, t1) =>
      let '(o, t2) := run_plan w p_in out in (o, t1 ++ t2)
  end.

(** Lines 319 and 322. *)
Definition neighbors_response (o : outcome (list neighbor_entry)) : response :=
  match o with
  | Returned l =>
      match first_refused (groups_cells l) with
      | None => Response (results_neighbors l) 200
      | Some type_name => execution_failed (not_serializable type_name)
      end
  | Raised e => execution_failed e
  end.

(** Lines 186 and 190. *)
Definition rows_response (result_dicts : list (dict value)) : response :=
  match first_refused (rows_cells result_dicts) with
  | None => Response (results_rows result_dicts) 200
  | Some type_name => execution_failed (not_serializable type_name)
  end.

(** The [TypeError] of the guards of lines 274 and 297: the label cannot be
    hashed and the direction lets a guard get as far as the lookup. *)
Definition guard_failure (w : world) (node_label direction : json) : option exn :=
  if unhashable node_label && json_in direction ["both"; "outgoing"; "incoming"]
  then Some (hash_error w node_label)
  else None.

(** What [request.json] and the first [data.get] raise when the body is not
    an object. *)
Definition body_error (r : request) : option exn :=
  match r with
  | BodyRaises e => Some e
  | Body (JDict _) => None
  | Body v => Some ("'" +:+ type_name v +:+ "' object has no attribute 'get'")
  end.

(** The request body is an object that holds a truthy value under [k]. *)
Definition has_field (k : string) (r : request) : bool :=
  match r with
  | Body (JDict data) => truthy (data_get k data)
  | _ => false
  end.

(** [node_label in d] for a label that can be hashed: the keys are strings. *)
Definition label_in {V} (node_label : json) (d : dict V) : bool :=
  match node_label with
  | JStr k => dict_mem k d
  | _ => false
  end.

(** The same request with its direction set. *)
Definition with_direction (direction : string) (data : json_obj) : json_obj :=
  dict_set "direction" (JStr direction) data.

(** What identifies a result group apart from its rows. *)
Definition entry_tag (e : neighbor_entry)
  : string * option string * option string * string :=
  (ne_relation e, ne_destination e, ne_source e, ne_direction e).

Definition outgoing_tag (r_d : out_rel) :=
  (out_relation r_d, Some (out_destination r_d), @None string, "outgoing").
Definition incoming_tag (r_d : in_rel) :=
  (in_relation r_d, @None string, Some (in_source r_d), "incoming").

(** The descriptors stored under the label that pass the edge-type filter,
    in stored order. *)
Definition matching_outgoing (g : globals) (node_label relationship_type : json)
  : list out_rel :=
  List.filter (fun r_d => negb (filtered_out relationship_type (out_relation r_d)))
    (match relations_of node_label (outgoing_relations g) with
     | Some rels => rels
     | None => []
     end).
Definition matching_incoming (g : globals) (node_label relationship_type : json)
  : list in_rel :=
  List.filter (fun r_d => negb (filtered_out relationship_type (in_relation r_d)))
    (match relations_of node_label (incoming_relations g) with
     | Some rels => rels
     | None => []
     end).

(** What the handler answers once [initialize_db] has returned. *)
Definition default_query_response (g : globals) : response :=
  if String.eqb (graph_name g) ""
     || (is_empty (outgoing_relations g) && is_empty (incoming_relations g))
  then Response (error "No graph structure available") 500
  else
    match outgoing_relations g, incoming_relations g with
    | (source_label, relation :: _) :: _, _ =>
        Response (query_body (default_query_text (graph_name g) source_label
                                (out_relation relation) (out_destination relation)))
                 200
    | [], (dest_label, relation :: _) :: _ =>
        Response (query_body (default_query_text (graph_name g) (in_source relation)
                                (in_relation relation) dest_label))
                 200
    | (_, []) :: _, _ | [], (_, []) :: _ => server_error "list index out of range"
    | [], [] => Response (error "Could not generate default query") 500
    end.

(** No key is stored with an empty list. *)
Definition lists_nonempty {A} (m : dict (list A)) : Prop :=
  forall k l, In (k, l) m -> l <> [].

Definition index_nonempty (g : globals) : Prop :=
  lists_nonempty (outgoing_relations g) /\ lists_nonempty (incoming_relations g).

(** The dictionary's first key is [k0] and its list starts with [x0]. *)
Definition headed_by {A} (k0 : string) (x0 : A) (m : dict (list A)) : Prop :=
  exists l rest, m = (k0, x0 :: l) :: rest.

(** * Example databases *)

(** A database with the Python runtime's answers filled in.  No example
    below puts a list or an object into a query text, so any [container_str]
    will do. *)
Definition database (attempts : nat -> attempt_outcome)
    (execute : string -> exn + query_result) : world :=
  World attempts execute
    (fun _ => "Please provide either a DuckDBPyStatement or a string representing the query")
    (fun v => "unhashable type: '" +:+ type_name v +:+ "'")
    (fun _ => "[]").

(** The catalog [("Patient", "Drug", "TAKES")] of a graph [drug_graph]. *)
Definition world_patient_drug : world :=
  database (fun _ => AttemptOk (Conn 1) [Some "drug_graph"] [Some "Patient"]
                    [Some "Drug"] [Some "TAKES"])
        (fun _ => inr (QueryResult [[VStr "aspirin"]] (Some ["b"]))).

(** The database file cannot be opened. *)
Definition world_unreachable : world :=
  database (fun _ => ConnectRaises "IO Error: Cannot open file")
        (fun _ => inl "not reached").

(** A catalog with an edge into and an edge out of [Patient]; the database
    answers the outgoing query and raises on everything else. *)
Definition world_incoming_fails : world :=
  database (fun _ => AttemptOk (Conn 1) [Some "drug_graph"]
                    [Some "Patient"; Some "Doctor"] [Some "Drug"; Some "Patient"]
                    [Some "TAKES"; Some "TREATS"])
        (fun q => if String.eqb q (outgoing_query "drug_graph" "Patient" "42" "TAKES" "Drug")
                  then inr (QueryResult [[VStr "aspirin"]] (Some ["b"]))
                  else inl "Binder Error").

(** The same catalog with a database that answers every query. *)
Definition world_clinic : world :=
  database (attempts world_incoming_fails)
        (fun _ => inr (QueryResult [[VStr "aspirin"]] (Some ["b"]))).

(** A catalog whose only row has a null [property_graph]. *)
Definition world_unnamed_graph : world :=
  database (fun _ => AttemptOk (Conn 1) [None] [Some "Patient"] [Some "Drug"]
                    [Some "TAKES"])
        (fun _ => inl "not reached").

(** Later the catalog holds a different edge. *)
Definition world_catalog_changed : world :=
  database (fun _ => AttemptOk (Conn 2) [Some "drug_graph"] [Some "Drug"]
                    [Some "Disease"] [Some "TREATS"])
        (execute world_clinic).

(** The connection opens, the test query of line 84 raises every time. *)
Definition world_no_drug_table : world :=
  database (fun _ => SetupRaises (Conn 1) "Catalog Error: Table with name Drug does not exist!")
        (fun _ => inl "not reached").

(** The first attempt fails after reading the graph name, the second
    succeeds on a catalog whose graph name is null. *)
Definition world_retry : world :=
  database (fun attempt =>
           match attempt with
           | 0 => CatalogRaises (Conn 1) [Some "stale_graph"] "IO Error"
           | _ => AttemptOk (Conn 2) [None] [Some "Patient"] [Some "Drug"] [Some "TAKES"]
           end)
        (fun _ => inl "not reached").

(** A result with two named columns. *)
Definition world_two_columns : world :=
  database (attempts world_clinic)
        (fun _ => inr (QueryResult [[VStr "aspirin"; VInt 7]] (Some ["name"; "dose"]))).

(** Two result columns with the same name. *)
Definition world_duplicate_columns : world :=
  database (attempts world_clinic)
        (fun _ => inr (QueryResult [[VInt 1; VInt 2]] (Some ["a"; "a"]))).

(** A result with a BLOB column. *)
Definition world_blob : world :=
  database (attempts world_clinic)
        (fun _ => inr (QueryResult [[VStr "aspirin"; VOther "bytes"]]
                         (Some ["name"; "image"]))).

(** * More vocabulary: where the index comes from *)

(** [x] is the source or the destination of a complete row. *)
Definition label_of_rows (rows : list catalog_row) (x : string) : Prop :=
  exists s d r, In (Some s, Some d, Some r) rows /\ (x = s \/ x = d).

(** Globals after the attempts listed, in order. *)
Definition after_attempts (w : world) (numbers : list nat) (g : globals) : globals :=
  fold_left (fun h i => after_attempt (attempts w i) h) numbers g.

(** The two maps and [node_types] are what the loop of line 110 makes of
    [rows] starting from nothing. *)
Definition built_from (rows : list catalog_row) (g : globals) : Prop :=
  outgoing_relations g = outgoing_relations (populate rows initial_globals)
  /\ incoming_relations g = incoming_relations (populate rows initial_globals)
  /\ node_types g = node_types (populate rows initial_globals).

(** The globals a running server can hold: those of module load, changed
    by any sequence of requests against any database behaviour. *)
Inductive reachable : globals -> Prop :=
| reachable_start : reachable initial_globals
| reachable_query w r g :
    reachable g -> reachable (snd (fst (execute_query w r g)))
| reachable_node_types w g :
    reachable g -> reachable (snd (fst (get_node_types w g)))
| reachable_default_query w g :
    reachable g -> reachable (snd (fst (get_default_query w g)))
| reachable_neighbors w r g :
    reachable g -> reachable (snd (fst (get_neighbors w r g))).

(** What every reachable state satisfies. *)
Definition coherent (g : globals) : Prop :=
  (exists rows, built_from rows g) /\ (conn g = None -> g = initial_globals).

Definition is_null (c : cell) : Prop := c = None.

(** The event is the execution of a query. *)
Definition is_execute (ev : db_event) : Prop :=
  match ev with Execute _ => True | Connect _ => False end.

(** * Code around the handlers *)

(** ** Choosing the database file (lines 35-45)

    [argv] is [sys.argv], [typed] what the user types at the [input]
    prompt, [path_exists] is [os.path.exists].  The result is the bound
    [db_path] or the exit of line 45, with what was printed. *)
Inductive startup :=
| Serving (db_path : string) (printed : list string)
| Exited (code : nat) (printed : list string).

Definition choose_db_path (argv : list string) (typed : string)
    (path_exists : string -> bool) : startup :=
  match argv with
  | _ :: arg :: _ =>
      let db_path := arg in
      if path_exists db_path then Serving db_path ["Using database file: " +:+ db_path]
      else Serving db_path ["Database file not found: " +:+ db_path]
  | _ =>
      let db_path := if String.eqb typed "" then "drug.db" else typed in
      if negb (path_exists db_path) then
        Exited 1 ["Database file not found: " +:+ db_path]
      else Serving db_path []
  end.

(** ** The embedding function registered at line 79 (lines 74-77) *)

(** [text.replace("\n", " ")], on the bytes of the text. *)
Fixpoint replace_newlines (text : string) : string :=
  match text with
  | EmptyString => EmptyString
  | String ch rest =>
      String (if Ascii.eqb ch (Ascii.ascii_of_nat 10) then Ascii.ascii_of_nat 32 else ch)
             (replace_newlines rest)
  end.

(** [create input model] stands for
    [client.embeddings.create(input=[input], model=model).data[0].embedding]. *)
Definition get_embedding {E : Type} (create : string -> string -> exn + E)
    (text : string) : exn + E :=
  let model := "text-embedding-3-small" in
  let text := replace_newlines text in
  create text model.

(** ** Closing the connection at exit (lines 328-335)

    [close c] is [conn.close()]: [None] when it returns, [Some e] when it
    raises.  The result is the globals, the connections [close] was called
    on and what was printed. *)
Definition cleanup (close : connection -> option exn) (g : globals)
  : globals * list connection * list string :=
  match conn g with
  | Some c =>
      match close c with
      | None => (g, [c], ["Database connection closed"])
      | Some e => (g, [c], ["Error closing database connection: " +:+ e])
      end
  | None => (g, [], [])
  end.

(** ** Order of the index *)

(** [l] with [x] appended unless an element passing [same] is there. *)
Definition append_new {A} (same : A -> bool) (x : A) (l : list A) : list A :=
  if existsb same l then l else l ++ [x].

(** The sources of the complete rows, in order of first appearance. *)
Definition sources_in_order (rows : list catalog_row) : list string :=
  fold_left (fun keys row =>
               match row with
               | (Some s, Some _, Some _) => append_new (String.eqb s) s keys
               | _ => keys
               end) rows [].

Definition destinations_in_order (rows : list catalog_row) : list string :=
  fold_left (fun keys row =>
               match row with
               | (Some _, Some d, Some _) => append_new (String.eqb d) d keys
               | _ => keys
               end) rows [].

(** The descriptors of the complete rows with source [k], resp. destination
    [k], in order of first appearance. *)
Definition outgoing_in_order (k : string) (rows : list catalog_row) : list out_rel :=
  fold_left (fun l row =>
               match row with
               | (Some s, Some d, Some r) =>
                   if String.eqb s k then append_new (same_out r d) (OutRel r d) l else l
               | _ => l
               end) rows [].

Definition incoming_in_order (k : string) (rows : list catalog_row) : list in_rel :=
  fold_left (fun l row =>
               match row with
               | (Some s, Some d, Some r) =>
                   if String.eqb d k then append_new (same_in r s) (InRel r s) l else l
               | _ => l
               end) rows [].

(** [d.get(k, [])] *)
Definition stored {A} (k : string) (m : dict (list A)) : list A :=
  match dict_get k m with Some l => l | None => [] end.

(** * Properties *)

(** ** Dictionaries *)

Section DictFacts.
Context {V : Type}.
Implicit Types (d : dict V) (k : string) (v : V).

Lemma dict_get_set_eq k v d : dict_get k (dict_set k v d) = Some v.
Proof.
  induction d as [|[k' v'] d IH]; simpl.
  - now rewrite String.eqb_refl.
  - destruct (String.eqb k k') eqn:E; simpl.
    + now rewrite String.eqb_refl.
    + now rewrite E.
Qed.

Lemma dict_get_set_ne k k' v d :
  k <> k' -> dict_get k' (dict_set k v d) = dict_get k' d.
Proof.
  intros Hne. induction d as [|[k0 v0] d IH]; simpl.
  - apply String.eqb_neq in Hne. rewrite String.eqb_sym in Hne. now rewrite Hne.
  - destruct (String.eqb k k0) eqn:E; simpl.
    + apply String.eqb_eq in E. subst k0.
      assert (String.eqb k' k = false) as ->; [|reflexivity].
      apply String.eqb_neq. congruence.
    + now rewrite IH.
Qed.

Lemma dict_get_set k k' v d :
  dict_get k' (dict_set k v d) = if String.eqb k k' then Some v else dict_get k' d.
Proof.
  destruct (String.eqb k k') eqn:E.
  - apply String.eqb_eq in E. subst. apply dict_get_set_eq.
  - apply String.eqb_neq in E. now apply dict_get_set_ne.
Qed.

Lemma dict_get_In k d : (exists v, dict_get k d = Some v) <-> In k (map fst d).
Proof.
  induction d as [|[k' v'] d IH]; simpl.
  - split; [intros [v Hv]; discriminate | tauto].
  - destruct (String.eqb k k') eqn:E.
    + apply String.eqb_eq in E. subst. split; eauto.
    + apply String.eqb_neq in E. rewrite IH. split; [tauto|].
      intros [H|H]; [congruence|assumption].
Qed.

(** Keys after [d[k] = v]: unchanged when [k] was there, else [k] last. *)
Lemma dict_set_keys k v d :
  map fst (dict_set k v d)
  = if dict_mem k d then map fst d else map fst d ++ [k].
Proof.
  unfold dict_mem. induction d as [|[k' v'] d IH]; simpl; [reflexivity|].
  destruct (String.eqb k k') eqn:E; simpl.
  - apply String.eqb_eq in E. now subst.
  - rewrite IH. now destruct (dict_get k d).
Qed.

Lemma dict_set_keys_NoDup k v d :
  List.NoDup (map fst d) -> List.NoDup (map fst (dict_set k v d)).
Proof.
  intros Hnd. rewrite dict_set_keys. unfold dict_mem.
  destruct (dict_get k d) eqn:E; [assumption|].
  apply List.NoDup_app; [assumption | |].
  - constructor; [simpl; tauto | constructor].
  - intros x Hx [<-|[]]. apply dict_get_In in Hx as [v' Hv']. congruence.
Qed.
End DictFacts.

(** ** Schema index builder *)

Lemma same_out_true r d x : same_out r d x = true <-> x = OutRel r d.
Proof.
  destruct x as [r' d']. unfold same_out. simpl.
  rewrite andb_true_iff, !String.eqb_eq. split.
  - now intros [-> ->].
  - intros H. now inversion H.
Qed.

Lemma same_in_true r s x : same_in r s x = true <-> x = InRel r s.
Proof.
  destruct x as [r' s']. unfold same_in. simpl.
  rewrite andb_true_iff, !String.eqb_eq. split.
  - now intros [-> ->].
  - intros H. now inversion H.
Qed.

(** Facts about the scan-then-append, for any scan test [same] that
    recognises exactly the element [x] to append. *)
Section AddOnce.
Context {A : Type} (same : A -> bool) (x : A).
Hypothesis same_spec : forall y, same y = true <-> y = x.

Lemma add_once_holds k m :
  exists l, dict_get k (add_once same x k m) = Some l /\ In x l.
Proof.
  unfold add_once. destruct (dict_get k m) as [existing|] eqn:E.
  - destruct (existsb same existing) eqn:Hdup.
    + apply existsb_exists in Hdup as (y & Hy & Hs).
      apply same_spec in Hs. subst y. eauto.
    + rewrite dict_get_set_eq. eexists. split; [reflexivity|].
      apply in_or_app. right. now left.
  - rewrite dict_get_set_eq. eexists. split; [reflexivity | now left].
Qed.

Lemma add_once_keeps k k' m l y :
  dict_get k' m = Some l -> In y l ->
  exists l', dict_get k' (add_once same x k m) = Some l' /\ In y l'.
Proof.
  intros Hget Hin. unfold add_once.
  destruct (dict_get k m) as [existing|] eqn:E.
  - destruct (existsb same existing); [eauto|].
    rewrite dict_get_set. destruct (String.eqb k k') eqn:Ek; [|eauto].
    apply String.eqb_eq in Ek. subst k'.
    assert (existing = l) as -> by congruence.
    eexists. split; [reflexivity|]. apply in_or_app. now left.
  - rewrite dict_get_set. destruct (String.eqb k k') eqn:Ek; [|eauto].
    apply String.eqb_eq in Ek. congruence.
Qed.

Lemma filter_none (P : A -> bool) l :
  (forall y, In y l -> P y = false) -> List.filter P l = [].
Proof.
  induction l as [|a l IH]; simpl; intros H; [reflexivity|].
  rewrite (H a) by now left. apply IH. intros y Hy. apply H. now right.
Qed.

Lemma add_once_at_most_once (P : A -> bool) k m :
  (P x = true -> forall y, P y = true -> y = x) ->
  at_most_once P m -> at_most_once P (add_once same x k m).
Proof.
  intros HP Hm k' l. unfold add_once.
  destruct (dict_get k m) as [existing|] eqn:E.
  - destruct (existsb same existing) eqn:Hdup; [apply Hm|].
    rewrite dict_get_set. destruct (String.eqb k k') eqn:Ek; [|apply Hm].
    intros [= <-]. rewrite List.filter_app, length_app. simpl.
    destruct (P x) eqn:Px; simpl; [|specialize (Hm _ _ E); lia].
    rewrite filter_none; [simpl; lia|].
    intros y Hy. destruct (P y) eqn:Py; [|reflexivity].
    apply (HP eq_refl) in Py. subst y.
    assert (existsb same existing = true); [|congruence].
    apply existsb_exists. exists x. split; [assumption | now apply same_spec].
  - rewrite dict_get_set. destruct (String.eqb k k') eqn:Ek; [|apply Hm].
    intros [= <-]. simpl. destruct (P x); simpl; lia.
Qed.

Lemma add_once_keys_NoDup k m :
  List.NoDup (map fst m) -> List.NoDup (map fst (add_once same x k m)).
Proof.
  intros H. unfold add_once. destruct (dict_get k m).
  - destruct (existsb same l); [assumption | now apply dict_set_keys_NoDup].
  - now apply dict_set_keys_NoDup.
Qed.

(** Adding what is already there changes nothing. *)
Lemma add_once_present k m l :
  dict_get k m = Some l -> In x l -> add_once same x k m = m.
Proof.
  intros Hget Hin. unfold add_once. rewrite Hget.
  assert (existsb same l = true) as ->; [|reflexivity].
  apply existsb_exists. exists x. split; [assumption | now apply same_spec].
Qed.
End AddOnce.

Lemma add_outgoing_add_once s d r out :
  add_outgoing s d r out = add_once (same_out r d) (OutRel r d) s out.
Proof. reflexivity. Qed.

Lemma add_incoming_add_once s d r inc :
  add_incoming s d r inc = add_once (same_in r s) (InRel r s) d inc.
Proof. reflexivity. Qed.

Lemma populate_cons row rows g :
  populate (row :: rows) g = populate rows (index_row row g).
Proof. reflexivity. Qed.

Lemma index_row_incomplete row g : row_complete row = false -> index_row row g = g.
Proof. destruct row as [[[s|] [d|]] [r|]]; simpl; congruence. Qed.

Lemma populate_filter rows g :
  populate rows g = populate (List.filter row_complete rows) g.
Proof.
  revert g. induction rows as [|row rows IH]; intros g; [reflexivity|].
  simpl List.filter. destruct (row_complete row) eqn:E.
  - rewrite !populate_cons. apply IH.
  - rewrite populate_cons, index_row_incomplete by assumption. apply IH.
Qed.

Lemma index_row_has_outgoing row g k r d :
  has_outgoing g k r d -> has_outgoing (index_row row g) k r d.
Proof.
  intros (l & Hl & Hin). destruct row as [[[s|] [d'|]] [r'|]]; simpl; try (now exists l).
  unfold has_outgoing. simpl. rewrite add_outgoing_add_once.
  eapply add_once_keeps; eassumption.
Qed.

Lemma index_row_has_incoming row g k r s :
  has_incoming g k r s -> has_incoming (index_row row g) k r s.
Proof.
  intros (l & Hl & Hin). destruct row as [[[s'|] [d'|]] [r'|]]; simpl; try (now exists l).
  unfold has_incoming. simpl. rewrite add_incoming_add_once.
  eapply add_once_keeps; eassumption.
Qed.

Lemma index_row_node_types row g x :
  x ∈ node_types g -> x ∈ node_types (index_row row g).
Proof. destruct row as [[[s|] [d|]] [r|]]; simpl; set_solver. Qed.

Lemma populate_has_outgoing rows g k r d :
  has_outgoing g k r d -> has_outgoing (populate rows g) k r d.
Proof.
  revert g. induction rows as [|row rows IH]; intros g H; [assumption|].
  rewrite populate_cons. now apply IH, index_row_has_outgoing.
Qed.

Lemma populate_has_incoming rows g k r s :
  has_incoming g k r s -> has_incoming (populate rows g) k r s.
Proof.
  revert g. induction rows as [|row rows IH]; intros g H; [assumption|].
  rewrite populate_cons. now apply IH, index_row_has_incoming.
Qed.

Lemma populate_node_types rows g x :
  x ∈ node_types g -> x ∈ node_types (populate rows g).
Proof.
  revert g. induction rows as [|row rows IH]; intros g H; [assumption|].
  rewrite populate_cons. now apply IH, index_row_node_types.
Qed.

Lemma index_row_complete s d r g :
  let g' := index_row (Some s, Some d, Some r) g in
  has_outgoing g' s r d /\ has_incoming g' d r s
  /\ s ∈ node_types g' /\ d ∈ node_types g'.
Proof.
  simpl. repeat split.
  - unfold has_outgoing. simpl. rewrite add_outgoing_add_once.
    apply add_once_holds, same_out_true.
  - unfold has_incoming. simpl. rewrite add_incoming_add_once.
    apply add_once_holds, same_in_true.
  - set_solver.
  - set_solver.
Qed.

Lemma populate_complete rows g s d r :
  In (Some s, Some d, Some r) rows ->
  let g' := populate rows g in
  has_outgoing g' s r d /\ has_incoming g' d r s
  /\ s ∈ node_types g' /\ d ∈ node_types g'.
Proof.
  revert g. induction rows as [|row rows IH]; intros g Hin; [destruct Hin|].
  destruct Hin as [->|Hin]; [|now apply IH].
  cbv zeta. rewrite populate_cons.
  destruct (index_row_complete s d r g) as (Ho & Hi & Hs & Hd).
  auto using populate_has_outgoing, populate_has_incoming, populate_node_types.
Qed.

Lemma same_out_unique r d r' d' :
  same_out r' d' (OutRel r d) = true ->
  forall y, same_out r' d' y = true -> y = OutRel r d.
Proof. intros H y Hy. apply same_out_true in H, Hy. congruence. Qed.

Lemma same_in_unique r s r' s' :
  same_in r' s' (InRel r s) = true ->
  forall y, same_in r' s' y = true -> y = InRel r s.
Proof. intros H y Hy. apply same_in_true in H, Hy. congruence. Qed.

Lemma index_row_deduplicated row g :
  index_deduplicated g -> index_deduplicated (index_row row g).
Proof.
  intros (Ho & Hi & Hko & Hki).
  destruct row as [[[s|] [d|]] [r|]]; simpl; try (now repeat split).
  unfold index_deduplicated. simpl.
  rewrite add_outgoing_add_once, add_incoming_add_once. repeat split.
  - intros r' d'. apply add_once_at_most_once;
      [apply same_out_true | apply same_out_unique | apply Ho].
  - intros r' s'. apply add_once_at_most_once;
      [apply same_in_true | apply same_in_unique | apply Hi].
  - now apply add_once_keys_NoDup.
  - now apply add_once_keys_NoDup.
Qed.

Lemma populate_deduplicated rows g :
  index_deduplicated g -> index_deduplicated (populate rows g).
Proof.
  revert g. induction rows as [|row rows IH]; intros g H; [assumption|].
  rewrite populate_cons. now apply IH, index_row_deduplicated.
Qed.

Lemma clear_relations_deduplicated g : index_deduplicated (clear_relations g).
Proof.
  repeat split; simpl; try apply List.NoDup_nil; intros ? ? ? ?; discriminate.
Qed.

Lemma build_index_deduplicated ss ds rs g :
  index_deduplicated (build_index ss ds rs g).
Proof. apply populate_deduplicated, clear_relations_deduplicated. Qed.

Lemma filter_length_In {A} (P : A -> bool) x l :
  In x l -> P x = true -> 1 <= length (List.filter P l).
Proof.
  induction l as [|a l IH]; simpl; [tauto|].
  intros [->|Hin] Px.
  - rewrite Px. simpl. lia.
  - destruct (P a); simpl; [lia | now apply IH].
Qed.

(** C1. Every zipped catalog row whose three fields are non-null ends up in
    the built index: its descriptor [{relation: e, destination: d}] is in
    [outgoing_relations[s]], its descriptor [{relation: e, source: s}] is in
    [incoming_relations[d]], and both labels are in [node_types].  A row
    with a null field is skipped: the loop body leaves all globals as they
    were, so the index is the one built from the complete rows alone. *)
Theorem build_index_rows (ss ds rs : list cell) (g : globals) :
  let g' := build_index ss ds rs g in
  (forall s d e,
      In (Some s, Some d, Some e) (zip3 ss ds rs) ->
      has_outgoing g' s e d /\ has_incoming g' d e s
      /\ s ∈ node_types g' /\ d ∈ node_types g')
  /\ (forall row h, row_complete row = false -> index_row row h = h)
  /\ g' = populate (List.filter row_complete (zip3 ss ds rs)) (clear_relations g).
Proof.
  cbv zeta. split; [|split].
  - intros s d e Hin. unfold build_index. now apply populate_complete.
  - intros row h. apply index_row_incomplete.
  - apply populate_filter.
Qed.

Lemma build_index_rows_witness :
  let g' := build_index [Some "Patient"; None; Some "Drug"]
                        [Some "Drug"; Some "Drug"; Some "Disease"]
                        [Some "TAKES"; Some "IGNORED"; None] initial_globals in
  (has_outgoing g' "Patient" "TAKES" "Drug" /\ has_incoming g' "Drug" "TAKES" "Patient"
   /\ "Patient" ∈ node_types g' /\ "Drug" ∈ node_types g')
  /\ index_row (Some "Drug", Some "Disease", None) g' = g'.
Proof.
  cbv zeta.
  destruct (build_index_rows [Some "Patient"; None; Some "Drug"]
                             [Some "Drug"; Some "Drug"; Some "Disease"]
                             [Some "TAKES"; Some "IGNORED"; None] initial_globals)
    as (Hrows & Hskip & _).
  split.
  - apply Hrows. simpl. left. reflexivity.
  - apply Hskip. reflexivity.
Defined.

(** Counting the occurrences of [x] is counting the elements that pass a
    test which holds of [x] alone. *)
Lemma count_occ_test {A} (dec : forall a b : A, {a = b} + {a <> b})
    (P : A -> bool) (x : A) (l : list A) :
  (forall y, P y = true <-> y = x) ->
  count_occ dec l x = length (List.filter P l).
Proof.
  intros HP. induction l as [|a l IH]; [reflexivity|]. simpl.
  destruct (dec a x) as [->|Hne].
  - rewrite (proj2 (HP x) eq_refl). simpl. now rewrite IH.
  - destruct (P a) eqn:E; [apply HP in E; contradiction | exact IH].
Qed.

(** C8. Whatever the catalog repeats, after the build the descriptor of a
    complete row occurs exactly once in the list stored under its key, in
    the outgoing and in the incoming map alike; each key occurs once in its
    map; and processing the same row once more changes neither map. *)
Theorem build_index_dedup (ss ds rs : list cell) (g : globals) (s d e : string) :
  In (Some s, Some d, Some e) (zip3 ss ds rs) ->
  let g' := build_index ss ds rs g in
  one_outgoing g' s e d /\ one_incoming g' d e s
  /\ List.NoDup (map fst (outgoing_relations g'))
  /\ List.NoDup (map fst (incoming_relations g'))
  /\ outgoing_relations (index_row (Some s, Some d, Some e) g') = outgoing_relations g'
  /\ incoming_relations (index_row (Some s, Some d, Some e) g') = incoming_relations g'.
Proof.
  intros Hin g'.
  destruct (populate_complete (zip3 ss ds rs) (clear_relations g) s d e Hin)
    as ((lo & Hlo & Ho) & (li & Hli & Hi) & _).
  fold (build_index ss ds rs g) in Hlo, Hli. fold g' in Hlo, Hli.
  destruct (build_index_deduplicated ss ds rs g) as (Hdo & Hdi & Hko & Hki).
  fold g' in Hdo, Hdi, Hko, Hki.
  repeat split; try assumption.
  - exists lo. split; [assumption|].
    rewrite (count_occ_test out_rel_eq_dec (same_out e d)) by apply same_out_true.
    pose proof (Hdo e d _ _ Hlo).
    pose proof (filter_length_In (same_out e d) _ _ Ho
                  (proj2 (same_out_true e d _) eq_refl)).
    lia.
  - exists li. split; [assumption|].
    rewrite (count_occ_test in_rel_eq_dec (same_in e s)) by apply same_in_true.
    pose proof (Hdi e s _ _ Hli).
    pose proof (filter_length_In (same_in e s) _ _ Hi
                  (proj2 (same_in_true e s _) eq_refl)).
    lia.
  - simpl. rewrite add_outgoing_add_once.
    eapply add_once_present; [apply same_out_true | eassumption | assumption].
  - simpl. rewrite add_incoming_add_once.
    eapply add_once_present; [apply same_in_true | eassumption | assumption].
Qed.

Lemma build_index_dedup_witness :
  let g' := build_index [Some "Patient"; Some "Patient"] [Some "Drug"; Some "Drug"]
                        [Some "TAKES"; Some "TAKES"] initial_globals in
  outgoing_relations g' = [("Patient", [OutRel "TAKES" "Drug"])]
  /\ incoming_relations g' = [("Drug", [InRel "TAKES" "Patient"])]
  /\ one_outgoing g' "Patient" "TAKES" "Drug"
  /\ one_incoming g' "Drug" "TAKES" "Patient".
Proof.
  cbv zeta. split; [reflexivity|]. split; [reflexivity|].
  assert (In (Some "Patient", Some "Drug", Some "TAKES")
             (zip3 [Some "Patient"; Some "Patient"] [Some "Drug"; Some "Drug"]
                   [Some "TAKES"; Some "TAKES"])) as Hin by (simpl; left; reflexivity).
  destruct (build_index_dedup _ _ _ initial_globals _ _ _ Hin) as (Ho & Hi & _).
  split; assumption.
Defined.

(** ** Neighbour lookup: the queries a request issues *)

Lemma outgoing_loop_run w node_label node_id relationship_type rels acc g :
  outgoing_loop w node_label node_id relationship_type rels acc g
  = let '(o, t) := run_plan w (outgoing_plan w (graph_name g) node_label node_id
                                 relationship_type rels) acc in
    (o, g, t).
Proof.
  revert acc. induction rels as [|r_d rels IH]; intros acc; [reflexivity|].
  simpl. unfold outgoing_plan. simpl.
  destruct (filtered_out relationship_type (out_relation r_d)); simpl.
  - apply IH.
  - unfold bind at 1. simpl. unfold bind at 1, db_execute. unfold bind at 1. simpl.
    destruct (execute w _) as [e|r]; simpl; [reflexivity|].
    rewrite IH. unfold outgoing_plan. now destruct (run_plan _ _ _).
Qed.

Lemma incoming_loop_run w node_label node_id relationship_type rels acc g :
  incoming_loop w node_label node_id relationship_type rels acc g
  = let '(o, t) := run_plan w (incoming_plan w (graph_name g) node_label node_id
                                 relationship_type rels) acc in
    (o, g, t).
Proof.
  revert acc. induction rels as [|r_d rels IH]; intros acc; [reflexivity|].
  simpl. unfold incoming_plan. simpl.
  destruct (filtered_out relationship_type (in_relation r_d)); simpl.
  - apply IH.
  - unfold bind at 1. simpl. unfold bind at 1, db_execute. unfold bind at 1. simpl.
    destruct (execute w _) as [e|r]; simpl; [reflexivity|].
    rewrite IH. unfold incoming_plan. now destruct (run_plan _ _ _).
Qed.

Lemma bind_ret_run {A B} (a : A) (f : A -> M B) g : (x <- ret a ;; f x) g = f a g.
Proof. unfold bind, ret. now destruct (f a g) as [[? ?] ?]. Qed.

Lemma bind_raise_run {A B} (e : exn) (f : A -> M B) g :
  (x <- raise e ;; f x) g = (Raised e, g, []).
Proof. reflexivity. Qed.

Lemma bind_read_run {B} (f : globals -> M B) g : (x <- read ;; f x) g = f g g.
Proof. unfold bind, read. now destruct (f g g) as [[? ?] ?]. Qed.

Lemma json_in_directions direction :
  json_in direction ["both"; "outgoing"; "incoming"]
  = json_in direction ["both"; "outgoing"] || json_in direction ["both"; "incoming"].
Proof.
  destruct direction as [| | | |s| |]; simpl; try reflexivity.
  destruct (String.eqb s "both"), (String.eqb s "outgoing"), (String.eqb s "incoming");
    reflexivity.
Qed.

Lemma unhashable_relations_of {V} node_label (d : dict (list V)) :
  unhashable node_label = true -> relations_of node_label d = None.
Proof. destruct node_label; simpl; congruence. Qed.

Lemma jsonify_neighbors_run result_dicts g :
  jsonify_neighbors result_dicts g
  = (match first_refused (groups_cells result_dicts) with
     | None => Returned (Response (results_neighbors result_dicts) 200)
     | Some type_name => Raised (not_serializable type_name)
     end, g, []).
Proof.
  unfold jsonify_neighbors. now destruct (first_refused (groups_cells result_dicts)).
Qed.

(** The part of the body after the outgoing loop. *)
Lemma incoming_half_run w node_label node_id relationship_type rels out g :
  (result_dicts <-
     match rels with
     | Some rels =>
         incoming_loop w node_label node_id relationship_type rels out
     | None => ret out
     end ;;
   jsonify_neighbors result_dicts) g
  = let '(o, t) :=
      run_plan w
        (match rels with
         | Some rels =>
             incoming_plan w (graph_name g) node_label node_id relationship_type rels
         | None => []
         end) out in
    (match o with
     | Returned all =>
         match first_refused (groups_cells all) with
         | None => Returned (Response (results_neighbors all) 200)
         | Some type_name => Raised (not_serializable type_name)
         end
     | Raised e => Raised e
     end, g, t).
Proof.
  unfold jsonify_neighbors. destruct rels as [rels|].
  - unfold bind. rewrite incoming_loop_run.
    destruct (run_plan w _ out) as [[al|e] t2]; [|reflexivity].
    destruct (first_refused (groups_cells al)); simpl; now rewrite app_nil_r.
  - rewrite bind_ret_run. simpl. now destruct (first_refused (groups_cells out)).
Qed.

(** The inner [try] body in one equation. *)
Lemma find_neighbors_run w node_label node_id direction relationship_type g :
  find_neighbors w node_label node_id direction relationship_type g
  = match guard_failure w node_label direction with
    | Some e => (Raised e, g, [])
    | None =>
        let '(o, t) :=
          run_parts w
            (outgoing_part w g node_label node_id direction relationship_type)
            (incoming_part w g node_label node_id direction relationship_type) in
        (match o with
         | Returned all =>
             match first_refused (groups_cells all) with
             | None => Returned (Response (results_neighbors all) 200)
             | Some type_name => Raised (not_serializable type_name)
             end
         | Raised e => Raised e
         end, g, t)
    end.
Proof.
  unfold find_neighbors, guard_failure, run_parts, outgoing_part, incoming_part,
    guarded_relations.
  rewrite json_in_directions, bind_read_run.
  destruct (unhashable node_label) eqn:Hu.
  - rewrite !(unhashable_relations_of node_label) by assumption.
    destruct (json_in direction ["both"; "outgoing"]); simpl; [reflexivity|].
    rewrite !bind_ret_run.
    destruct (json_in direction ["both"; "incoming"]); simpl; [reflexivity|].
    rewrite bind_ret_run. apply (incoming_half_run w node_label node_id relationship_type None).
  - cbn [andb].
    destruct (json_in direction ["both"; "outgoing"]);
      destruct (json_in direction ["both"; "incoming"]);
      rewrite bind_ret_run; cbv iota.
    all: try (destruct (relations_of node_label (outgoing_relations g)) as [rels|]).
    all: try (unfold bind at 1; rewrite outgoing_loop_run;
              destruct (run_plan w _ []) as [[out|e] t1]; [|reflexivity]).
    all: rewrite ?bind_ret_run, ?incoming_half_run, ?jsonify_neighbors_run;
      cbn [run_plan].
    all: repeat match goal with
           | |- context [run_plan ?w' ?p ?acc] => destruct (run_plan w' p acc) as [? ?]
           end.
    all: rewrite ?app_nil_r; reflexivity.
Qed.

(** ** Connection lifecycle *)

Lemma run_attempt_run o g :
  run_attempt o g = (attempt_result o, after_attempt o g, []).
Proof. destruct o; reflexivity. Qed.

Lemma attempt_loop_run w attempt retries g :
  attempt_loop w attempt retries g
  = match attempt_result (attempts w attempt), retries with
    | Returned c, _ =>
        (Returned c, after_attempt (attempts w attempt) g, [Connect attempt])
    | Raised e, 0 =>
        (Raised e, after_attempt (attempts w attempt) g, [Connect attempt])
    | Raised e, S retries' =>
        let '(o, g', t) :=
          attempt_loop w (S attempt) retries' (after_attempt (attempts w attempt) g) in
        (o, g', Connect attempt :: t)
    end.
Proof.
  destruct retries; simpl; unfold bind, emit, catch; simpl;
    rewrite run_attempt_run; destruct (attempt_result _); simpl; try reflexivity.
  now destruct (attempt_loop _ _ _ _) as [[? ?] ?].
Qed.

Lemma initialize_db_connected w g c :
  conn g = Some c -> initialize_db w g = (Returned c, g, []).
Proof. intros H. unfold initialize_db, bind, read. simpl. now rewrite H. Qed.

Lemma initialize_db_fresh w g :
  conn g = None -> initialize_db w g = attempt_loop w 0 (max_attempts - 1) g.
Proof.
  intros H. unfold initialize_db, bind, read. cbv beta iota. rewrite H.
  now destruct (attempt_loop w 0 (max_attempts - 1) g) as [[? ?] ?].
Qed.

Lemma attempt_loop_returned w attempt retries g c g' t :
  attempt_loop w attempt retries g = (Returned c, g', t) ->
  exists i graph_result ss ds rs g0,
    attempt <= i <= attempt + retries
    /\ attempts w i = AttemptOk c graph_result ss ds rs
    /\ g' = build_index ss ds rs g0.
Proof.
  revert attempt g t. induction retries as [|retries IH]; intros attempt g t;
    rewrite attempt_loop_run.
  - destruct (attempts w attempt) eqn:E; simpl; intros [= <- <- <-].
    exists attempt. do 5 eexists. split; [lia|]. split; [eassumption | reflexivity].
  - destruct (attempts w attempt) eqn:E; simpl;
      try (destruct (attempt_loop _ _ _ _) as [[o g1] t1] eqn:El;
           intros [= -> -> <-];
           apply IH in El as (i & gr & ss & ds & rs & g0 & Hi & Ha & Hg);
           exists i, gr, ss, ds, rs, g0; split; [lia | now split]).
    intros [= <- <- <-].
    exists attempt. do 5 eexists. split; [lia|]. split; [eassumption | reflexivity].
Qed.

Lemma attempt_loop_trace w attempt retries g :
  Forall is_connect (snd (attempt_loop w attempt retries g)).
Proof.
  revert attempt g. induction retries as [|retries IH]; intros attempt g;
    rewrite attempt_loop_run.
  - destruct (attempt_result _); simpl; repeat constructor.
  - destruct (attempt_result _); simpl; [repeat constructor|].
    specialize (IH (S attempt) (after_attempt (attempts w attempt) g)).
    destruct (attempt_loop _ _ _ _) as [[o g1] t1]. simpl in *.
    constructor; [exact I | assumption].
Qed.

Lemma initialize_db_trace w g : Forall is_connect (snd (initialize_db w g)).
Proof.
  destruct (conn g) as [c|] eqn:E.
  - rewrite (initialize_db_connected w g c E). constructor.
  - rewrite initialize_db_fresh by assumption. apply attempt_loop_trace.
Qed.

Lemma initialize_db_no_execute w g q : ~ In (Execute q) (snd (initialize_db w g)).
Proof.
  intros Hin. pose proof (initialize_db_trace w g) as H.
  rewrite List.Forall_forall in H. exact (H _ Hin).
Qed.

(** ** Neighbour lookup *)

Lemma get_neighbors_run w data g :
  truthy (data_get "label" data) = true ->
  truthy (data_get "id" data) = true ->
  get_neighbors w (obj data) g
  = match initialize_db w g with
    | (Raised e, g1, t0) => (server_error e, g1, t0)
    | (Returned _, g1, t0) =>
        match guard_failure w (data_get "label" data)
                (data_get_default "direction" "both" data) with
        | Some e => (execution_failed e, g1, t0)
        | None =>
            let '(o, t) :=
              run_parts w
                (outgoing_part w g1 (data_get "label" data) (data_get "id" data)
                   (data_get_default "direction" "both" data)
                   (data_get "relationshipType" data))
                (incoming_part w g1 (data_get "label" data) (data_get "id" data)
                   (data_get_default "direction" "both" data)
                   (data_get "relationshipType" data)) in
            (neighbors_response o, g1, t0 ++ t)
        end
    end.
Proof.
  intros Hl Hi. unfold get_neighbors, respond, obj, request_data.
  rewrite bind_ret_run. cbv zeta. rewrite Hl, Hi. cbn [negb orb].
  unfold bind at 1. destruct (initialize_db w g) as [[[c|e] g1] t0]; [|reflexivity].
  unfold catch. rewrite find_neighbors_run.
  destruct (guard_failure w _ _) as [e|].
  - simpl. now rewrite app_nil_r.
  - destruct (run_parts w _ _) as [[al|e] t]; simpl.
    + destruct (first_refused (groups_cells al)); simpl; now rewrite ?app_nil_r.
    + now rewrite app_nil_r.
Qed.

Lemma get_neighbors_invalid w data g :
  truthy (data_get "label" data) = false \/ truthy (data_get "id" data) = false ->
  get_neighbors w (obj data) g
  = (Response (error "node_label and node_id are required") 400, g, []).
Proof.
  intros H. unfold get_neighbors, respond, obj, request_data.
  rewrite bind_ret_run. cbv zeta.
  assert (negb (truthy (data_get "label" data)) || negb (truthy (data_get "id" data))
          = true) as ->; [|reflexivity].
  destruct H as [-> | ->]; [reflexivity | apply orb_true_r].
Qed.

Lemma request_data_run r g :
  request_data r g
  = match body_error r, r with
    | Some e, _ => (Raised e, g, [])
    | None, Body (JDict data) => (Returned data, g, [])
    | None, _ => (Raised "", g, [])
    end.
Proof. destruct r as [e|[]]; reflexivity. Qed.

Lemma get_neighbors_no_object w r g e :
  body_error r = Some e -> get_neighbors w r g = (server_error e, g, []).
Proof.
  intros H. unfold get_neighbors, respond, bind. rewrite request_data_run, H.
  reflexivity.
Qed.

Lemma body_error_none r :
  body_error r = None -> exists data, r = obj data.
Proof. destruct r as [e|[]]; try discriminate. intros _. now eexists. Qed.

Lemma run_plan_acc w plan acc :
  run_plan w plan acc
  = match run_plan w plan [] with
    | (Returned l, t) => (Returned (acc ++ l), t)
    | (Raised e, t) => (Raised e, t)
    end.
Proof.
  revert acc. induction plan as [|[q group] plan IH]; intros acc; simpl.
  - now rewrite app_nil_r.
  - destruct (execute w q) as [e|r]; [reflexivity|].
    rewrite IH. rewrite (IH [group (fetchall r)]).
    destruct (run_plan w plan []) as [[l|e] t]; [|reflexivity].
    now rewrite app_assoc.
Qed.

Lemma run_plan_Forall (P : neighbor_entry -> Prop) w plan l t :
  (forall q group rows, In (q, group) plan -> P (group rows)) ->
  run_plan w plan [] = (Returned l, t) -> Forall P l.
Proof.
  revert l t. induction plan as [|[q group] plan IH]; intros l t HP; simpl.
  - intros [= <- <-]. constructor.
  - destruct (execute w q) as [e|r]; [discriminate|].
    rewrite run_plan_acc.
    destruct (run_plan w plan []) as [[l'|e] t'] eqn:E; [|discriminate].
    intros [= <- <-]. constructor.
    + apply (HP q). now left.
    + eapply IH; [|reflexivity]. intros q' group' rows Hin. apply (HP q'). now right.
Qed.

(** The groups come in the order of the plan. *)
Lemma run_plan_order {B} (f : neighbor_entry -> B) w plan l t :
  (forall q group rows, In (q, group) plan -> f (group rows) = f (group [])) ->
  run_plan w plan [] = (Returned l, t) ->
  map f l = map (fun p => f (snd p [])) plan.
Proof.
  revert l t. induction plan as [|[q group] plan IH]; intros l t Hf; simpl.
  - now intros [= <- <-].
  - destruct (execute w q) as [e|r]; [discriminate|].
    rewrite run_plan_acc.
    destruct (run_plan w plan []) as [[l'|e] t'] eqn:E; [|discriminate].
    intros [= <- <-]. simpl. f_equal.
    + apply (Hf q). now left.
    + eapply IH; [|reflexivity]. intros q' group' rows Hin. apply (Hf q'). now right.
Qed.

(** A query that raised is the last one the run executed, and its error
    is the outcome. *)
Lemma run_plan_raised w plan acc q e :
  In (Execute q) (snd (run_plan w plan acc)) ->
  execute w q = inl e ->
  fst (run_plan w plan acc) = Raised e
  /\ exists t0, snd (run_plan w plan acc) = t0 ++ [Execute q].
Proof.
  revert acc. induction plan as [|[q0 group] plan IH]; intros acc; simpl; [tauto|].
  destruct (execute w q0) as [e0|r] eqn:E0; simpl.
  - intros [[= <-]|[]] He. split; [congruence | now exists []].
  - destruct (run_plan w plan (acc ++ [group (fetchall r)])) as [o t] eqn:Er. simpl.
    intros [[= <-]|Hin] He; [congruence|].
    specialize (IH (acc ++ [group (fetchall r)])). rewrite Er in IH.
    destruct (IH Hin He) as [Ho [t0 Ht]]. simpl in *. split; [assumption|].
    exists (Execute q0 :: t0). now rewrite Ht.
Qed.

Lemma run_parts_raised w p_out p_in q e :
  In (Execute q) (snd (run_parts w p_out p_in)) ->
  execute w q = inl e ->
  fst (run_parts w p_out p_in) = Raised e
  /\ exists t0, snd (run_parts w p_out p_in) = t0 ++ [Execute q].
Proof.
  unfold run_parts. intros Hin He.
  destruct (run_plan w p_out []) as [[out|e1] t1] eqn:E1.
  - destruct (run_plan w p_in out) as [o t2] eqn:E2. simpl in *.
    apply in_app_or in Hin as [Hin|Hin].
    + pose proof (run_plan_raised w p_out [] q e) as H. rewrite E1 in H.
      destruct (H Hin He) as [Ho _]. discriminate.
    + pose proof (run_plan_raised w p_in out q e) as H. rewrite E2 in H.
      destruct (H Hin He) as [Ho [t0 Ht]]. simpl in *. split; [assumption|].
      exists (t1 ++ t0). now rewrite Ht, app_assoc.
  - pose proof (run_plan_raised w p_out [] q e) as H. rewrite E1 in H. now apply H.
Qed.

(** C6 (amended). A neighbour request whose label or id is missing (there
    is no object to read it from, the object lacks the key, or the key holds
    [null], an empty string or another falsy value) makes no database call
    and leaves the globals untouched: no connection attempt, no query.  The
    answer is the 400 validation error when the body is an object, and the
    500 'Server error' of the outer handler when [request.json] raised or
    the body is not an object. *)
Theorem neighbors_missing_field (w : world) (r : request) (g : globals) :
  has_field "label" r = false \/ has_field "id" r = false ->
  get_neighbors w r g
  = (match body_error r with
     | Some e => server_error e
     | None => Response (error "node_label and node_id are required") 400
     end, g, []).
Proof.
  intros H. destruct (body_error r) as [e|] eqn:E.
  - now apply get_neighbors_no_object.
  - apply body_error_none in E as [data ->]. now apply get_neighbors_invalid.
Qed.

Lemma neighbors_missing_field_witness :
  get_neighbors world_clinic
    (obj [("id", JStr "42"); ("direction", JStr "outgoing")]) initial_globals
  = (Response (error "node_label and node_id are required") 400, initial_globals, []).
Proof.
  apply (neighbors_missing_field world_clinic). left. reflexivity.
Defined.

(** C6 as stated fails: the body is the JSON value [null], so there is
    neither label nor id, yet the answer is not a validation error; line
    255 raises inside the outer [try] and the handler answers 500. *)
Lemma neighbors_null_body :
  get_neighbors world_clinic (Body JNull) initial_globals
  = (Response (error "Server error: 'NoneType' object has no attribute 'get'") 500,
     initial_globals, []).
Proof. reflexivity. Qed.

(** C7. If a query that [get_neighbors] executed raised, the response is the
    structured 500 error carrying that query's message, not a results list:
    the groups collected before it are gone.  The failing query is the last
    database call of the request.  The handler is a total function, so the
    error is always turned into a response. *)
Theorem neighbors_all_or_nothing (w : world) (r : request) (g : globals)
    (q : string) (e : exn) :
  In (Execute q) (snd (get_neighbors w r g)) ->
  execute w q = inl e ->
  fst (fst (get_neighbors w r g))
  = Response (error ("Error executing query: " +:+ e)) 500
  /\ exists t0, snd (get_neighbors w r g) = t0 ++ [Execute q].
Proof.
  intros Hin He.
  destruct (body_error r) as [e0|] eqn:Eb;
    [rewrite (get_neighbors_no_object w r g e0 Eb) in Hin; destruct Hin|].
  apply body_error_none in Eb as [data ->].
  destruct (truthy (data_get "label" data)) eqn:Hl;
    [destruct (truthy (data_get "id" data)) eqn:Hi|];
    try (rewrite get_neighbors_invalid in Hin by auto; destruct Hin).
  rewrite get_neighbors_run in * by assumption.
  pose proof (initialize_db_no_execute w g q) as Hinit.
  destruct (initialize_db w g) as [[[c|e0] g1] t0]; simpl in Hinit;
    [|simpl in Hin; contradiction].
  destruct (guard_failure w _ _) as [e0|]; [simpl in Hin; contradiction|].
  match goal with
  | |- context [run_parts ?w' ?po ?pi] =>
      pose proof (run_parts_raised w' po pi q e) as Hrun;
      destruct (run_parts w' po pi) as [o t]
  end.
  simpl in *. apply in_app_or in Hin as [Hin|Hin]; [contradiction|].
  destruct (Hrun Hin He) as [-> [t1 ->]]. split; [reflexivity|].
  exists (t0 ++ t1). now rewrite app_assoc.
Qed.

(** Nothing is planned for an unknown direction or an unknown label. *)
Lemma nothing_planned w g node_label node_id direction relationship_type :
  json_in direction ["both"; "outgoing"; "incoming"] = false
  \/ (label_in node_label (outgoing_relations g) = false
      /\ label_in node_label (incoming_relations g) = false) ->
  outgoing_part w g node_label node_id direction relationship_type = []
  /\ incoming_part w g node_label node_id direction relationship_type = [].
Proof.
  unfold outgoing_part, incoming_part.
  intros [Hdir | [Ho Hn]].
  - rewrite json_in_directions in Hdir. apply orb_false_iff in Hdir as [-> ->].
    now split.
  - assert (relations_of node_label (outgoing_relations g) = None) as ->.
    { destruct node_label; try reflexivity. simpl in *. unfold dict_mem in Ho.
      now destruct (dict_get s (outgoing_relations g)). }
    assert (relations_of node_label (incoming_relations g) = None) as ->.
    { destruct node_label; try reflexivity. simpl in *. unfold dict_mem in Hn.
      now destruct (dict_get s (incoming_relations g)). }
    split; now destruct (json_in _ _).
Qed.

(** C10 (amended). Take a request whose label and id pass the handler's
    presence check, and whose direction is none of "both", "outgoing",
    "incoming" or whose label is a key of neither map.  The request executes
    no query and is never answered with the 400 validation error.  Its
    answer is fixed by what happens before the loops: 500 'Server error'
    when [initialize_db] raises; otherwise 500 'Error executing query' when
    a guard has to hash a label that is a list or an object; otherwise 200
    with an empty results list. *)
Theorem neighbors_nothing_to_do (w : world) (data : json_obj) (g : globals) :
  let node_label := data_get "label" data in
  let direction := data_get_default "direction" "both" data in
  let g1 := snd (fst (initialize_db w g)) in
  truthy node_label = true ->
  truthy (data_get "id" data) = true ->
  json_in direction ["both"; "outgoing"; "incoming"] = false
  \/ (label_in node_label (outgoing_relations g1) = false
      /\ label_in node_label (incoming_relations g1) = false) ->
  get_neighbors w (obj data) g
  = (match fst (fst (initialize_db w g)) with
     | Raised e => server_error e
     | Returned _ =>
         match guard_failure w node_label direction with
         | Some e => execution_failed e
         | None => Response (results_neighbors []) 200
         end
     end, g1, snd (initialize_db w g))
  /\ status (fst (fst (get_neighbors w (obj data) g))) <> 400
  /\ forall q, ~ In (Execute q) (snd (get_neighbors w (obj data) g)).
Proof.
  intros node_label direction g1 Htl Hti Hcase.
  rewrite get_neighbors_run by assumption.
  pose proof (initialize_db_no_execute w g) as Hquiet.
  subst g1. destruct (initialize_db w g) as [[[c|e] g1] t0]; simpl in *.
  - fold node_label direction.
    destruct (guard_failure w node_label direction) as [e|].
    + split; [reflexivity|]. split; [discriminate | exact Hquiet].
    + destruct (nothing_planned w g1 node_label (data_get "id" data) direction
                  (data_get "relationshipType" data) Hcase) as [-> ->].
      simpl. rewrite app_nil_r. split; [reflexivity|].
      split; [discriminate | exact Hquiet].
  - split; [reflexivity|]. split; [discriminate | exact Hquiet].
Qed.

Lemma neighbors_nothing_to_do_witness :
  get_neighbors world_patient_drug
    (obj [("label", JStr "Patient"); ("id", JStr "42"); ("direction", JStr "outgoin")])
    initial_globals
  = (Response (results_neighbors []) 200,
     snd (fst (initialize_db world_patient_drug initial_globals)), [Connect 0]).
Proof.
  apply (neighbors_nothing_to_do world_patient_drug
           [("label", JStr "Patient"); ("id", JStr "42"); ("direction", JStr "outgoin")]
           initial_globals); [reflexivity | reflexivity | left; reflexivity].
Defined.

(** C10 as stated fails.  A request with a mistyped direction is answered
    500 when the database file cannot be opened: [initialize_db] runs before
    the direction is looked at.  A label that is a list is a key of neither
    map, yet the guard of line 274 raises on hashing it.  And an id that is
    present but is the number 0 does get the validation error. *)
Lemma neighbors_nothing_found_fails :
  get_neighbors world_unreachable
    (obj [("label", JStr "Patient"); ("id", JStr "42"); ("direction", JStr "outgoin")])
    initial_globals
  = (Response (error "Server error: IO Error: Cannot open file") 500,
     initial_globals, [Connect 0; Connect 1; Connect 2])
  /\ get_neighbors world_patient_drug
       (obj [("label", JList [JStr "Patient"]); ("id", JStr "42")]) initial_globals
     = (Response (error "Error executing query: unhashable type: 'list'") 500,
        snd (fst (initialize_db world_patient_drug initial_globals)), [Connect 0])
  /\ get_neighbors world_patient_drug
       (obj [("label", JStr "Patient"); ("id", JInt 0); ("direction", JStr "outgoin")])
       initial_globals
     = (Response (error "node_label and node_id are required") 400, initial_globals, []).
Proof. split; [|split]; reflexivity. Qed.

Lemma neighbors_all_or_nothing_witness :
  fst (fst (get_neighbors world_incoming_fails
              (obj [("label", JStr "Patient"); ("id", JStr "42")]) initial_globals))
  = Response (error "Error executing query: Binder Error") 500.
Proof.
  destruct (neighbors_all_or_nothing world_incoming_fails
              (obj [("label", JStr "Patient"); ("id", JStr "42")]) initial_globals
              (incoming_query "drug_graph" "Patient" "42" "TREATS" "Doctor")
              "Binder Error") as [H _].
  - vm_compute. right. right. left. reflexivity.
  - reflexivity.
  - exact H.
Defined.

(** ** Directions *)

Lemma data_get_with_direction k direction data :
  k <> "direction" -> data_get k (with_direction direction data) = data_get k data.
Proof.
  intros Hk. unfold data_get, with_direction.
  rewrite dict_get_set_ne by congruence. reflexivity.
Qed.

Lemma data_get_direction direction data :
  data_get_default "direction" "both" (with_direction direction data) = JStr direction.
Proof. unfold data_get_default, with_direction. now rewrite dict_get_set_eq. Qed.

Lemma first_refused_app l1 l2 :
  first_refused (l1 ++ l2)
  = match first_refused l1 with
    | Some type_name => Some type_name
    | None => first_refused l2
    end.
Proof.
  induction l1 as [|v l1 IH]; [reflexivity|]. simpl. now destruct (refused v).
Qed.

Lemma groups_cells_app l1 l2 : groups_cells (l1 ++ l2) = groups_cells l1 ++ groups_cells l2.
Proof. unfold groups_cells. now rewrite map_app, concat_app. Qed.

Lemma outgoing_part_tags w g node_label node_id direction relationship_type out t :
  json_in direction ["both"; "outgoing"] = true ->
  run_plan w (outgoing_part w g node_label node_id direction relationship_type) []
  = (Returned out, t) ->
  Forall (fun e => ne_direction e = "outgoing") out
  /\ map entry_tag out
     = map outgoing_tag (matching_outgoing g node_label relationship_type).
Proof.
  intros Hd Hrun. split.
  - eapply run_plan_Forall; [|eassumption].
    intros q group rows. unfold outgoing_part, outgoing_plan.
    destruct (if json_in _ _ then _ else _); [|intros []].
    rewrite in_map_iff. intros (r_d & [= <- <-] & _). reflexivity.
  - erewrite run_plan_order; [| |eassumption].
    + unfold outgoing_part, matching_outgoing, outgoing_plan. rewrite Hd.
      destruct (relations_of _ _); [|reflexivity]. now rewrite map_map.
    + intros q group rows. unfold outgoing_part, outgoing_plan.
      destruct (if json_in _ _ then _ else _); [|intros []].
      rewrite in_map_iff. intros (r_d & [= <- <-] & _). reflexivity.
Qed.

Lemma incoming_part_tags w g node_label node_id direction relationship_type inc t :
  json_in direction ["both"; "incoming"] = true ->
  run_plan w (incoming_part w g node_label node_id direction relationship_type) []
  = (Returned inc, t) ->
  Forall (fun e => ne_direction e = "incoming") inc
  /\ map entry_tag inc
     = map incoming_tag (matching_incoming g node_label relationship_type).
Proof.
  intros Hd Hrun. split.
  - eapply run_plan_Forall; [|eassumption].
    intros q group rows. unfold incoming_part, incoming_plan.
    destruct (if json_in _ _ then _ else _); [|intros []].
    rewrite in_map_iff. intros (r_d & [= <- <-] & _). reflexivity.
  - erewrite run_plan_order; [| |eassumption].
    + unfold incoming_part, matching_incoming, incoming_plan. rewrite Hd.
      destruct (relations_of _ _); [|reflexivity]. now rewrite map_map.
    + intros q group rows. unfold incoming_part, incoming_plan.
      destruct (if json_in _ _ then _ else _); [|intros []].
      rewrite in_map_iff. intros (r_d & [= <- <-] & _). reflexivity.
Qed.

(** The response of a valid request on initialised globals, by direction. *)
Lemma neighbors_by_direction w data g c g1 t0 direction :
  truthy (data_get "label" data) = true ->
  truthy (data_get "id" data) = true ->
  initialize_db w g = (Returned c, g1, t0) ->
  fst (fst (get_neighbors w (obj (with_direction direction data)) g))
  = match guard_failure w (data_get "label" data) (JStr direction) with
    | Some e => execution_failed e
    | None =>
        neighbors_response
          (fst (run_parts w
                  (outgoing_part w g1 (data_get "label" data) (data_get "id" data)
                     (JStr direction) (data_get "relationshipType" data))
                  (incoming_part w g1 (data_get "label" data) (data_get "id" data)
                     (JStr direction) (data_get "relationshipType" data))))
    end.
Proof.
  intros Hl Hi Hinit.
  rewrite get_neighbors_run, Hinit;
    rewrite ?data_get_with_direction, ?data_get_direction by discriminate;
    try assumption.
  destruct (guard_failure w _ _); [reflexivity|].
  now destruct (run_parts _ _ _).
Qed.

(** C3. For the same globals, database and request fields: the groups
    returned for direction "outgoing" are all tagged "outgoing", those for
    "incoming" all tagged "incoming", each list following the stored order
    of the label's descriptors that pass the filter; and "both" returns the
    "outgoing" list followed by the "incoming" list, whenever either side of
    that comparison is a results response. *)
Theorem neighbors_directions (w : world) (data : json_obj) (g : globals) :
  let call direction :=
    fst (fst (get_neighbors w (obj (with_direction direction data)) g)) in
  let g1 := snd (fst (initialize_db w g)) in
  let label := data_get "label" data in
  let filter := data_get "relationshipType" data in
  (forall out,
      call "outgoing" = Response (results_neighbors out) 200 ->
      Forall (fun e => ne_direction e = "outgoing") out
      /\ map entry_tag out = map outgoing_tag (matching_outgoing g1 label filter))
  /\ (forall inc,
         call "incoming" = Response (results_neighbors inc) 200 ->
         Forall (fun e => ne_direction e = "incoming") inc
         /\ map entry_tag inc = map incoming_tag (matching_incoming g1 label filter))
  /\ (forall out inc,
         call "outgoing" = Response (results_neighbors out) 200 ->
         call "incoming" = Response (results_neighbors inc) 200 ->
         call "both" = Response (results_neighbors (out ++ inc)) 200)
  /\ (forall all,
         call "both" = Response (results_neighbors all) 200 ->
         exists out inc,
           call "outgoing" = Response (results_neighbors out) 200
           /\ call "incoming" = Response (results_neighbors inc) 200
           /\ all = out ++ inc).
Proof.
  intros call g1 label filter.
  destruct (truthy (data_get "label" data) && truthy (data_get "id" data)) eqn:Hvalid.
  - apply andb_true_iff in Hvalid as [Hl Hi].
    destruct (initialize_db w g) as [[[c|e] g1'] t0] eqn:Hinit.
    + subst call g1. cbv beta. simpl snd. simpl fst at 2 4.
      rewrite !(neighbors_by_direction w data g c g1' t0) by assumption.
      fold label filter. unfold guard_failure.
      destruct (unhashable label); cbn [andb json_in existsb String.eqb orb];
        [unfold execution_failed;
         (split; [|split; [|split]]); intros; discriminate|].
      unfold run_parts.
      set (id := data_get "id" data).
      change (outgoing_part w g1' label id (JStr "incoming") filter) with (@nil planned).
      change (incoming_part w g1' label id (JStr "outgoing") filter) with (@nil planned).
      change (outgoing_part w g1' label id (JStr "outgoing") filter)
        with (outgoing_part w g1' label id (JStr "both") filter).
      change (incoming_part w g1' label id (JStr "incoming") filter)
        with (incoming_part w g1' label id (JStr "both") filter).
      cbn [run_plan].
      pose proof (outgoing_part_tags w g1' label id (JStr "both") filter) as Hout.
      pose proof (incoming_part_tags w g1' label id (JStr "both") filter) as Hinc.
      destruct (run_plan w (outgoing_part w g1' label id (JStr "both") filter) [])
        as [[out|e1] t1].
      * rewrite (run_plan_acc w (incoming_part w g1' label id (JStr "both") filter) out).
        destruct (run_plan w (incoming_part w g1' label id (JStr "both") filter) [])
          as [[inc|e2] t2]; unfold execution_failed; simpl;
          rewrite ?groups_cells_app, ?first_refused_app, ?app_nil_r;
          destruct (first_refused (groups_cells out));
          try destruct (first_refused (groups_cells inc));
          (split; [|split; [|split]]);
          first [ now (intros; discriminate)
                | now (intros ? [= <-]; apply (Hout _ t1))
                | now (intros ? [= <-]; apply (Hinc _ t2))
                | now (intros o i [= <-] [= <-])
                | intros al [= <-]; eauto ].
      * destruct (run_plan w (incoming_part w g1' label id (JStr "both") filter) [])
          as [[inc|e2] t2]; unfold execution_failed; simpl;
          try destruct (first_refused (groups_cells inc));
          (split; [|split; [|split]]);
          first [ now (intros; discriminate)
                | now (intros ? [= <-]; apply (Hinc _ t2)) ].
    + assert (forall direction, call direction = server_error e) as Hcall.
      { intros direction. subst call. cbv beta.
        rewrite get_neighbors_run, Hinit;
          rewrite ?data_get_with_direction by discriminate; auto. }
      rewrite !Hcall. unfold server_error. (split; [|split; [|split]]); intros; discriminate.
  - assert (forall direction,
               call direction
               = Response (error "node_label and node_id are required") 400) as Hcall.
    { intros direction. subst call. cbv beta. rewrite get_neighbors_invalid; [reflexivity|].
      rewrite !data_get_with_direction by discriminate.
      apply andb_false_iff in Hvalid. exact Hvalid. }
    rewrite !Hcall. (split; [|split; [|split]]); intros; discriminate.
Qed.

Lemma neighbors_directions_witness :
  let call direction :=
    fst (fst (get_neighbors world_clinic
                (obj (with_direction direction
                        [("label", JStr "Patient"); ("id", JStr "42")]))
                initial_globals)) in
  let out := [NeighborEntry "TAKES" (Some "Drug") None "outgoing" [[VStr "aspirin"]]] in
  let inc := [NeighborEntry "TREATS" None (Some "Doctor") "incoming" [[VStr "aspirin"]]] in
  call "outgoing" = Response (results_neighbors out) 200
  /\ call "incoming" = Response (results_neighbors inc) 200
  /\ call "both" = Response (results_neighbors (out ++ inc)) 200
  /\ Forall (fun e => ne_direction e = "outgoing") out
  /\ Forall (fun e => ne_direction e = "incoming") inc.
Proof.
  cbv zeta.
  destruct (neighbors_directions world_clinic
              [("label", JStr "Patient"); ("id", JStr "42")] initial_globals)
    as (Hout & Hinc & Hboth & _).
  split; [reflexivity|]. split; [reflexivity|]. split; [|split].
  - apply Hboth; reflexivity.
  - apply Hout. reflexivity.
  - apply Hinc. reflexivity.
Defined.

(** ** Default query *)

Lemma default_query_text_nonempty graph s r d :
  String.eqb (default_query_text graph s r d) "" = false.
Proof. reflexivity. Qed.

Lemma get_default_query_run w g :
  get_default_query w g
  = match initialize_db w g with
    | (Raised e, g1, t0) => (server_error e, g1, t0)
    | (Returned _, g1, t0) => (default_query_response g1, g1, t0)
    end.
Proof.
  unfold get_default_query, respond, default_query_response. unfold bind at 1.
  destruct (initialize_db w g) as [[[c|e] g1] t0]; [|reflexivity].
  unfold bind at 1. simpl.
  destruct (String.eqb (graph_name g1) "" || _); simpl; [now rewrite app_nil_r|].
  destruct (outgoing_relations g1) as [|[source_label [|relation relations]] rest];
    [destruct (incoming_relations g1) as [|[dest_label [|relation relations]] rest]|..];
    simpl; now rewrite ?app_nil_r.
Qed.

(** C2 (amended). Once [initialize_db] has returned: with a non-empty graph
    name, a non-empty outgoing map gives the query rendered from its first
    label and that label's first descriptor; an empty outgoing and non-empty
    incoming map gives the query rendered from the incoming map's first
    label and first descriptor; and the error 'No graph structure available'
    is returned exactly when the graph name is empty or both maps are. *)
Theorem default_query_policy (w : world) (g g1 : globals) (c : connection)
    (t0 : list db_event) :
  initialize_db w g = (Returned c, g1, t0) ->
  let r := fst (fst (get_default_query w g)) in
  (forall source_label relation relations rest,
      graph_name g1 <> "" ->
      outgoing_relations g1 = (source_label, relation :: relations) :: rest ->
      r = Response (query_body
                      (default_query_text (graph_name g1) source_label
                         (out_relation relation) (out_destination relation))) 200)
  /\ (forall dest_label relation relations rest,
         graph_name g1 <> "" ->
         outgoing_relations g1 = [] ->
         incoming_relations g1 = (dest_label, relation :: relations) :: rest ->
         r = Response (query_body
                         (default_query_text (graph_name g1) (in_source relation)
                            (in_relation relation) dest_label)) 200)
  /\ (r = Response (error "No graph structure available") 500
      <-> graph_name g1 = ""
          \/ (outgoing_relations g1 = [] /\ incoming_relations g1 = [])).
Proof.
  intros Hinit r. subst r. rewrite get_default_query_run, Hinit. simpl.
  unfold default_query_response. split; [|split].
  - intros source_label relation relations rest Hname Hout.
    apply String.eqb_neq in Hname. now rewrite Hname, Hout.
  - intros dest_label relation relations rest Hname Hout Hinc.
    apply String.eqb_neq in Hname. now rewrite Hname, Hout, Hinc.
  - destruct (String.eqb_spec (graph_name g1) "") as [Hname|Hname]; simpl.
    + tauto.
    + destruct (outgoing_relations g1) as [|[source_label [|relation relations]] rest];
        [destruct (incoming_relations g1) as [|[dest_label [|relation relations]] rest]|..];
        simpl; split; try tauto; try discriminate;
        intros [?|[? ?]]; congruence.
Qed.

Lemma default_query_policy_witness :
  fst (fst (get_default_query world_clinic initial_globals))
  = Response (query_body
      "FROM GRAPH_TABLE (drug_graph MATCH (a:Patient)-[n:TAKES]->(b:Drug) COLUMNS (a, n, b)) LIMIT 5")
      200.
Proof.
  destruct (default_query_policy world_clinic initial_globals
              (snd (fst (initialize_db world_clinic initial_globals)))
              (Conn 1) [Connect 0] eq_refl) as [H _].
  apply (H "Patient" (OutRel "TAKES" "Drug") [] [("Doctor", [OutRel "TREATS" "Patient"])]).
  - discriminate.
  - reflexivity.
Defined.

(** C2 as stated fails: the outgoing map is non-empty, yet the answer is
    'No graph structure available', because line 213 also tests the graph
    name. *)
Lemma default_query_unnamed_graph :
  outgoing_relations (snd (fst (get_default_query world_unnamed_graph initial_globals)))
  = [("Patient", [OutRel "TAKES" "Drug"])]
  /\ fst (fst (get_default_query world_unnamed_graph initial_globals))
     = Response (error "No graph structure available") 500.
Proof. split; reflexivity. Qed.

(** ** What the handlers do to the globals *)

Lemma execute_query_run w data g :
  truthy (data_get "query" data) = true ->
  execute_query w (obj data) g
  = match initialize_db w g with
    | (Raised e, g1, t0) => (server_error e, g1, t0)
    | (Returned _, g1, t0) =>
        match data_get "query" data with
        | JStr q =>
            (match execute w q with
             | inl e => execution_failed e
             | inr r => rows_response (to_result_dicts (column_names_of r) (fetchall r))
             end, g1, t0 ++ [Execute q])
        | query => (execution_failed (execute_invalid w query), g1, t0)
        end
    end.
Proof.
  intros Hq. unfold execute_query, respond, obj, request_data.
  rewrite bind_ret_run. cbv zeta. rewrite Hq. cbn [negb].
  unfold bind at 1. destruct (initialize_db w g) as [[[c|e] g1] t0]; [|reflexivity].
  unfold catch, db_execute_value, rows_response, jsonify_rows.
  destruct (data_get "query" data) as [| | | |q| |];
    try (simpl; now rewrite app_nil_r).
  unfold bind, db_execute, bind, emit. simpl.
  destruct (execute w q) as [e|r]; [reflexivity|].
  unfold ret, raise. destruct (first_refused _); reflexivity.
Qed.

Lemma execute_query_invalid w data g :
  truthy (data_get "query" data) = false ->
  execute_query w (obj data) g = (Response (error "Query is required") 400, g, []).
Proof.
  intros Hq. unfold execute_query, respond, obj, request_data.
  rewrite bind_ret_run. cbv zeta. now rewrite Hq.
Qed.

Lemma execute_query_no_object w r g e :
  body_error r = Some e -> execute_query w r g = (server_error e, g, []).
Proof.
  intros H. unfold execute_query, respond, bind. rewrite request_data_run, H.
  reflexivity.
Qed.

Lemma get_node_types_run w g :
  get_node_types w g
  = match initialize_db w g with
    | (Raised e, g1, t0) => (server_error e, g1, t0)
    | (Returned _, g1, t0) =>
        (Response (results_labels (elements (node_types g1))) 200, g1, t0)
    end.
Proof.
  unfold get_node_types, respond, bind, read.
  destruct (initialize_db w g) as [[[c|e] g1] t0]; [|reflexivity].
  simpl. now rewrite app_nil_r.
Qed.

(** A handler leaves the globals as they were or as [initialize_db] left them. *)
Lemma handlers_globals w (r : request) g :
  let after := snd (fst (initialize_db w g)) in
  (snd (fst (execute_query w r g)) = g
   \/ snd (fst (execute_query w r g)) = after)
  /\ snd (fst (get_node_types w g)) = after
  /\ snd (fst (get_default_query w g)) = after
  /\ (snd (fst (get_neighbors w r g)) = g
      \/ snd (fst (get_neighbors w r g)) = after).
Proof.
  cbv zeta. repeat split.
  - destruct (body_error r) as [e|] eqn:Eb;
      [left; now rewrite (execute_query_no_object w r g e)|].
    apply body_error_none in Eb as [data ->].
    destruct (truthy (data_get "query" data)) eqn:Hq.
    + right. rewrite execute_query_run by assumption.
      destruct (initialize_db w g) as [[[c|e] g1] t0]; [|reflexivity].
      now destruct (data_get "query" data).
    + left. now rewrite execute_query_invalid.
  - rewrite get_node_types_run. now destruct (initialize_db w g) as [[[c|e] g1] t0].
  - rewrite get_default_query_run. now destruct (initialize_db w g) as [[[c|e] g1] t0].
  - destruct (body_error r) as [e|] eqn:Eb;
      [left; now rewrite (get_neighbors_no_object w r g e)|].
    apply body_error_none in Eb as [data ->].
    destruct (truthy (data_get "label" data)) eqn:Hl;
      [destruct (truthy (data_get "id" data)) eqn:Hi|];
      try (left; rewrite get_neighbors_invalid by auto; reflexivity).
    right. rewrite get_neighbors_run by assumption.
    destruct (initialize_db w g) as [[[c|e] g1] t0]; [|reflexivity].
    destruct (guard_failure w _ _); [reflexivity|].
    now destruct (run_parts _ _ _).
Qed.

(** The maps built by the loop depend on the maps it starts from only. *)
Lemma populate_relations rows g h :
  outgoing_relations g = outgoing_relations h ->
  incoming_relations g = incoming_relations h ->
  outgoing_relations (populate rows g) = outgoing_relations (populate rows h)
  /\ incoming_relations (populate rows g) = incoming_relations (populate rows h).
Proof.
  revert g h. induction rows as [|row rows IH]; intros g h Ho Hi; [now split|].
  rewrite !populate_cons. apply IH;
    destruct row as [[[s|] [d|]] [r|]]; simpl; congruence.
Qed.

Lemma build_index_relations ss ds rs g :
  outgoing_relations (build_index ss ds rs g)
  = outgoing_relations (build_index ss ds rs initial_globals)
  /\ incoming_relations (build_index ss ds rs g)
     = incoming_relations (build_index ss ds rs initial_globals).
Proof. unfold build_index. now apply populate_relations. Qed.

(** C5 (amended). A call of [initialize_db] that finds a connection returns
    it and changes nothing.  A call that finds none and returns has had an
    attempt succeed: both maps are then exactly the maps built from that
    attempt's catalog starting from empty ones, whatever they held before,
    and the labels of its complete rows are in [node_types].  The handlers
    leave the globals as they found them or as [initialize_db] left them. *)
Theorem initialize_rebuild (w : world) (g : globals) :
  (forall c, conn g = Some c -> initialize_db w g = (Returned c, g, []))
  /\ (forall c g1 t,
         conn g = None ->
         initialize_db w g = (Returned c, g1, t) ->
         exists i graph_result ss ds rs,
           i < max_attempts
           /\ attempts w i = AttemptOk c graph_result ss ds rs
           /\ outgoing_relations g1
              = outgoing_relations (build_index ss ds rs initial_globals)
           /\ incoming_relations g1
              = incoming_relations (build_index ss ds rs initial_globals)
           /\ forall s d e,
               In (Some s, Some d, Some e) (zip3 ss ds rs) ->
               s ∈ node_types g1 /\ d ∈ node_types g1)
  /\ (forall request,
         let after := snd (fst (initialize_db w g)) in
         (snd (fst (execute_query w request g)) = g
          \/ snd (fst (execute_query w request g)) = after)
         /\ snd (fst (get_node_types w g)) = after
         /\ snd (fst (get_default_query w g)) = after
         /\ (snd (fst (get_neighbors w request g)) = g
             \/ snd (fst (get_neighbors w request g)) = after)).
Proof.
  split; [|split].
  - intros c. apply initialize_db_connected.
  - intros c g1 t Hnone Hinit. rewrite initialize_db_fresh in Hinit by assumption.
    apply attempt_loop_returned in Hinit
      as (i & gr & ss & ds & rs & g0 & Hi & Ha & ->).
    exists i, gr, ss, ds, rs. unfold max_attempts in *.
    split; [simpl in Hi; lia|]. split; [assumption|].
    destruct (build_index_relations ss ds rs g0) as [Ho Hn].
    split; [assumption|]. split; [assumption|].
    intros s d e Hin.
    now destruct (populate_complete (zip3 ss ds rs) (clear_relations g0) s d e Hin)
      as (_ & _ & Hs & Hd).
  - intros request. apply handlers_globals.
Qed.

Lemma initialize_rebuild_witness :
  let g1 := snd (fst (initialize_db world_clinic initial_globals)) in
  initialize_db world_clinic g1 = (Returned (Conn 1), g1, [])
  /\ outgoing_relations g1
     = [("Patient", [OutRel "TAKES" "Drug"]); ("Doctor", [OutRel "TREATS" "Patient"])].
Proof.
  cbv zeta. split.
  - destruct (initialize_rebuild world_clinic
                (snd (fst (initialize_db world_clinic initial_globals)))) as [H _].
    apply H. reflexivity.
  - reflexivity.
Defined.

(** C5 as stated fails: the second call finds the connection of the first
    and returns at line 56; the maps still describe the old catalog, not
    the one the database holds now. *)
Lemma initialize_db_keeps_index :
  let g1 := snd (fst (initialize_db world_clinic initial_globals)) in
  let g2 := snd (fst (initialize_db world_catalog_changed g1)) in
  g2 = g1
  /\ outgoing_relations g2
     = [("Patient", [OutRel "TAKES" "Drug"]); ("Doctor", [OutRel "TREATS" "Patient"])]
  /\ outgoing_relations (build_index [Some "Drug"] [Some "Disease"] [Some "TREATS"] g1)
     = [("Drug", [OutRel "TREATS" "Disease"])].
Proof. cbv zeta. repeat split; reflexivity. Qed.

(** ** A failed initialisation *)

(** C4 fails on the code.  After three failed attempts [initialize_db]
    raises, but [conn] stays bound to the half-set-up connection while both
    maps, [node_types] and [graph_name] are empty; the next request finds
    [conn is not None], skips initialisation and answers from the empty
    index.  And an attempt that follows a failed one inherits what the
    failed one wrote: here the graph name. *)
Theorem initialize_db_half_built :
  let '(o, g1, t) := initialize_db world_no_drug_table initial_globals in
  (o = Raised "Catalog Error: Table with name Drug does not exist!"
   /\ t = [Connect 0; Connect 1; Connect 2]
   /\ conn g1 = Some (Conn 1)
   /\ outgoing_relations g1 = [] /\ incoming_relations g1 = []
   /\ node_types g1 = ∅ /\ graph_name g1 = ""
   /\ get_node_types world_clinic g1 = (Response (results_labels []) 200, g1, [])
   /\ get_default_query world_clinic g1
      = (Response (error "No graph structure available") 500, g1, []))
  /\ graph_name (snd (fst (initialize_db world_retry initial_globals))) = "stale_graph".
Proof. vm_compute. repeat split; reflexivity. Qed.

(** ** Raw queries: rows to dictionaries *)

Lemma str_of_nat_inj i j : str_of_nat i = str_of_nat j -> i = j.
Proof.
  unfold str_of_nat. intros H.
  apply (f_equal NilEmpty.uint_of_string) in H. rewrite !NilEmpty.usu in H.
  injection H as H. apply (f_equal Nat.of_uint) in H.
  now rewrite !DecimalNat.Unsigned.of_to in H.
Qed.

Lemma col_name_schema column_names i n :
  nth_error column_names i = Some n -> col_name column_names i = n.
Proof. unfold col_name. now intros ->. Qed.

Lemma col_name_fallback column_names i :
  length column_names <= i -> col_name column_names i = "col" +:+ str_of_nat i.
Proof.
  intros H. unfold col_name. apply nth_error_None in H. now rewrite H.
Qed.

Lemma col_name_empty_inj i j : col_name [] i = col_name [] j -> i = j.
Proof.
  rewrite !col_name_fallback by (simpl; lia). simpl.
  intros [= H]. now apply str_of_nat_inj.
Qed.

(** A key no position of the row writes keeps its binding. *)
Lemma fill_row_other column_names r :
  forall start row_dict k,
    (forall j, j < length r -> col_name column_names (start + j) <> k) ->
    dict_get k (fill_row column_names start r row_dict) = dict_get k row_dict.
Proof.
  induction r as [|v r IH]; intros start row_dict k Hk; [reflexivity|].
  simpl. rewrite IH.
  - apply dict_get_set_ne. specialize (Hk 0). rewrite Nat.add_0_r in Hk.
    apply Hk. simpl. lia.
  - intros j Hj. replace (S start + j) with (start + S j) by lia.
    apply Hk. simpl. lia.
Qed.

(** The value at position [i] is bound to its name unless a later position
    has that name too. *)
Lemma fill_row_bound column_names r :
  forall start row_dict i v,
    nth_error r i = Some v ->
    (forall j, i < j < length r ->
               col_name column_names (start + j) <> col_name column_names (start + i)) ->
    dict_get (col_name column_names (start + i)) (fill_row column_names start r row_dict)
    = Some v.
Proof.
  induction r as [|x r IH]; intros start row_dict i v Hi Hlater.
  - destruct i; discriminate.
  - destruct i as [|i]; simpl in Hi |- *.
    + injection Hi as ->. rewrite Nat.add_0_r in *. rewrite fill_row_other.
      * apply dict_get_set_eq.
      * intros j Hj. replace (S start + j) with (start + S j) by lia.
        apply Hlater. simpl. lia.
    + replace (start + S i) with (S start + i) by lia. apply IH; [assumption|].
      intros j Hj. replace (S start + j) with (start + S j) by lia.
      replace (S start + i) with (start + S i) by lia. apply Hlater. simpl. lia.
Qed.

(** The keys written are the names of the positions of the row. *)
Lemma fill_row_keys column_names r :
  forall start row_dict k,
    In k (map fst (fill_row column_names start r row_dict))
    <-> In k (map fst row_dict)
        \/ exists j, j < length r /\ k = col_name column_names (start + j).
Proof.
  induction r as [|x r IH]; intros start row_dict k; simpl.
  - split; [tauto|]. intros [H|(j & Hj & _)]; [assumption | lia].
  - rewrite IH, dict_set_keys. split.
    + intros [H|(j & Hj & ->)].
      * destruct (dict_mem _ _); [now left|].
        apply in_app_or in H as [H|[<-|[]]]; [now left|].
        right. exists 0. rewrite Nat.add_0_r. split; [lia | reflexivity].
      * right. exists (S j). split; [lia|]. f_equal. lia.
    + intros [H|(j & Hj & ->)].
      * left. destruct (dict_mem _ _); [assumption | apply in_or_app; now left].
      * destruct j as [|j].
        -- left. rewrite Nat.add_0_r. unfold dict_mem.
           destruct (dict_get _ row_dict) eqn:E.
           ++ apply dict_get_In. eauto.
           ++ apply in_or_app. right. now left.
        -- right. exists j. split; [lia|]. f_equal. lia.
Qed.

Lemma first_refused_none cells :
  first_refused cells = None <-> forall v, In v cells -> refused v = None.
Proof.
  induction cells as [|v cells IH]; simpl.
  - split; [intros _ v [] | reflexivity].
  - destruct (refused v) eqn:E.
    + split; [discriminate|]. intros H. rewrite <- E. apply H. now left.
    + rewrite IH. split.
      * intros H v' [<-|Hin]; [exact E | now apply H].
      * intros H v' Hin. apply H. now right.
Qed.

Lemma first_refused_some cells type_name :
  first_refused cells = Some type_name -> In (VOther type_name) cells.
Proof.
  induction cells as [|v cells IH]; simpl; [discriminate|].
  destruct v; simpl; try (intros H; right; now apply IH).
  intros [= ->]. now left.
Qed.

Lemma insert_item_In {V} (kv x : string * V) items :
  In x (insert_item kv items) <-> x = kv \/ In x items.
Proof.
  induction items as [|kv' items IH]; simpl.
  - split; [intros [<-|[]]; now left | intros [->|[]]; now left].
  - destruct (String.leb (fst kv) (fst kv')); simpl.
    + split; [intros [<-|H]; auto | intros [->|H]; auto].
    + rewrite IH. split; [intros [H|[H|H]]; auto | intros [H|[H|H]]; auto].
Qed.

(** Sorting moves the items around and keeps them all. *)
Lemma sorted_items_In {V} (d : dict V) x : In x (sorted_items d) <-> In x d.
Proof.
  unfold sorted_items. induction d as [|kv d IH]; simpl; [reflexivity|].
  rewrite insert_item_In, IH. split; intros [H|H]; auto.
Qed.

Lemma rows_cells_In result_dicts v :
  In v (rows_cells result_dicts)
  <-> exists row_dict k, In row_dict result_dicts /\ In (k, v) row_dict.
Proof.
  unfold rows_cells. rewrite in_concat. split.
  - intros (cells & Hcells & Hv). apply in_map_iff in Hcells as (row_dict & <- & Hrow).
    apply in_map_iff in Hv as ([k v'] & Hsnd & Hkv). simpl in Hsnd. subst v'.
    exists row_dict, k. split; [assumption | now apply sorted_items_In].
  - intros (row_dict & k & Hrow & Hkv). exists (map snd (sorted_items row_dict)).
    split; [apply in_map_iff; eauto|].
    apply in_map_iff. exists (k, v). split; [reflexivity | now apply sorted_items_In].
Qed.

(** C9 (amended). A raw query that executes yields one dictionary per result
    row, in row order.  The keys of a row's dictionary are the names of its
    positions: the name the description gives position [i], or [col<i>]
    where the description gives none (in particular for every position when
    it is absent or empty).  The value at position [i] is bound to the name
    of position [i] provided no later position of the row has the same
    name; with an absent or empty description the names are pairwise
    distinct, so every value is bound.  The dictionaries are the body of a
    200 response when the JSON provider refuses none of the values they
    hold; when it does (the [bytes] of a BLOB cell), [jsonify] raises inside
    the inner [try] and the answer is the 500 'Error executing query' that
    names the type of such a value. *)
Theorem run_query_rows (w : world) (data : json_obj) (g g1 : globals)
    (c : connection) (t0 : list db_event) (q : string) (r : query_result) :
  data_get "query" data = JStr q -> q <> "" ->
  initialize_db w g = (Returned c, g1, t0) ->
  execute w q = inr r ->
  let column_names := column_names_of r in
  exists dicts,
    execute_query w (obj data) g
    = (match first_refused (rows_cells dicts) with
       | None => Response (results_rows dicts) 200
       | Some type_name =>
           Response (error ("Error executing query: " +:+ not_serializable type_name))
             500
       end, g1, t0 ++ [Execute q])
    /\ (first_refused (rows_cells dicts) = None
        <-> forall row_dict k v,
              In row_dict dicts -> In (k, v) row_dict -> refused v = None)
    /\ (forall type_name,
           first_refused (rows_cells dicts) = Some type_name ->
           exists row_dict k, In row_dict dicts /\ In (k, VOther type_name) row_dict)
    /\ length dicts = length (fetchall r)
    /\ (forall n row,
           nth_error (fetchall r) n = Some row ->
           exists row_dict,
             nth_error dicts n = Some row_dict
             /\ (forall k, In k (map fst row_dict)
                           <-> exists i, i < length row /\ k = col_name column_names i)
             /\ (forall i v,
                    nth_error row i = Some v ->
                    (forall j, i < j < length row ->
                               col_name column_names j <> col_name column_names i) ->
                    dict_get (col_name column_names i) row_dict = Some v)
             /\ (column_names = [] ->
                 forall i v, nth_error row i = Some v ->
                             dict_get ("col" +:+ str_of_nat i) row_dict = Some v))
    /\ (forall i n, nth_error column_names i = Some n -> col_name column_names i = n)
    /\ (forall i, length column_names <= i ->
                  col_name column_names i = "col" +:+ str_of_nat i)
    /\ (description r = None \/ description r = Some [] -> column_names = []).
Proof.
  intros Hq Hne Hinit He column_names.
  exists (to_result_dicts column_names (fetchall r)).
  split; [|split; [|split; [|split; [|split; [|split; [|split]]]]]].
  - rewrite execute_query_run.
    + rewrite Hinit, Hq. now rewrite He.
    + rewrite Hq. simpl. now apply negb_true_iff, String.eqb_neq.
  - rewrite first_refused_none. split.
    + intros H row_dict k v Hrow Hkv. apply H, rows_cells_In. eauto.
    + intros H v Hv. apply rows_cells_In in Hv as (row_dict & k & Hrow & Hkv). eauto.
  - intros type_name H. now apply first_refused_some, rows_cells_In in H.
  - unfold to_result_dicts. apply length_map.
  - intros n row Hn. exists (fill_row column_names 0 row []).
    split; [|split; [|split]].
    + unfold to_result_dicts. now rewrite nth_error_map, Hn.
    + intros k. rewrite fill_row_keys. simpl. split.
      * intros [[]|H]. exact H.
      * intros H. right. exact H.
    + intros i v Hi Hlater. apply (fill_row_bound column_names row 0 [] i v Hi Hlater).
    + intros Hempty i v Hi. rewrite Hempty.
      rewrite <- (col_name_fallback [] i) by (simpl; lia).
      apply (fill_row_bound [] row 0 [] i v Hi).
      intros j Hj Heq. apply col_name_empty_inj in Heq. simpl in Heq. lia.
  - apply col_name_schema.
  - apply col_name_fallback.
  - unfold column_names, column_names_of. now intros [-> | ->].
Qed.

Lemma run_query_rows_witness :
  (exists dicts,
      execute_query world_two_columns
        (obj [("query", JStr "SELECT name, dose FROM Drug")]) initial_globals
      = (Response (results_rows dicts) 200,
         snd (fst (initialize_db world_two_columns initial_globals)),
         [Connect 0; Execute "SELECT name, dose FROM Drug"])
      /\ length dicts = 1)
  /\ (exists type_name,
         execute_query world_blob
           (obj [("query", JStr "SELECT name, image FROM Drug")]) initial_globals
         = (Response (error ("Error executing query: " +:+ not_serializable type_name))
              500,
            snd (fst (initialize_db world_blob initial_globals)),
            [Connect 0; Execute "SELECT name, image FROM Drug"])).
Proof.
  split.
  - destruct (run_query_rows world_two_columns
                [("query", JStr "SELECT name, dose FROM Drug")] initial_globals
                (snd (fst (initialize_db world_two_columns initial_globals)))
                (Conn 1) [Connect 0] "SELECT name, dose FROM Drug"
                (QueryResult [[VStr "aspirin"; VInt 7]] (Some ["name"; "dose"])))
      as (dicts & Heq & _ & _ & Hlen & _).
    + reflexivity.
    + discriminate.
    + reflexivity.
    + reflexivity.
    + destruct (first_refused (rows_cells dicts)).
      * vm_compute in Heq. discriminate Heq.
      * exists dicts. split; [exact Heq | exact Hlen].
  - destruct (run_query_rows world_blob
                [("query", JStr "SELECT name, image FROM Drug")] initial_globals
                (snd (fst (initialize_db world_blob initial_globals)))
                (Conn 1) [Connect 0] "SELECT name, image FROM Drug"
                (QueryResult [[VStr "aspirin"; VOther "bytes"]]
                   (Some ["name"; "image"])))
      as (dicts & Heq & _).
    + reflexivity.
    + discriminate.
    + reflexivity.
    + reflexivity.
    + destruct (first_refused (rows_cells dicts)) as [type_name|].
      * exists type_name. exact Heq.
      * vm_compute in Heq. discriminate Heq.
Defined.

(** C9 as stated fails: the value at position 0 is not bound to the name of
    position 0, the value at position 1 has overwritten it. *)
Lemma run_query_duplicate_column :
  fst (fst (execute_query world_duplicate_columns
              (obj [("query", JStr "SELECT 1 AS a, 2 AS a")]) initial_globals))
  = Response (results_rows [[("a", VInt 2)]]) 200
  /\ col_name ["a"; "a"] 0 = "a"
  /\ dict_get "a" (fill_row ["a"; "a"] 0 [VInt 1; VInt 2] []) <> Some (VInt 1).
Proof. repeat split. discriminate. Qed.

(** ** Stored lists are never empty *)

Lemma dict_set_In {V} (k k' : string) (v v' : V) (d : dict V) :
  In (k', v') (dict_set k v d) -> (k', v') = (k, v) \/ In (k', v') d.
Proof.
  induction d as [|[k0 v0] d IH]; simpl.
  - intros [H|[]]. now left.
  - destruct (String.eqb k k0); simpl; intros [H|H]; auto.
    destruct (IH H); auto.
Qed.

Lemma add_once_nonempty {A} (same : A -> bool) (x : A) k m :
  lists_nonempty m -> lists_nonempty (add_once same x k m).
Proof.
  intros Hm k' l. unfold add_once.
  destruct (dict_get k m) as [existing|]; [destruct (existsb same existing)|];
    try apply Hm; intros H; apply dict_set_In in H as [[= -> ->]|H];
    try (now apply (Hm k' l)); try discriminate.
  now destruct existing.
Qed.

Lemma index_row_nonempty row g : index_nonempty g -> index_nonempty (index_row row g).
Proof.
  intros [Ho Hi]. destruct row as [[[s|] [d|]] [r|]]; try (now split).
  split; simpl; [rewrite add_outgoing_add_once | rewrite add_incoming_add_once];
    now apply add_once_nonempty.
Qed.

Lemma populate_nonempty rows g : index_nonempty g -> index_nonempty (populate rows g).
Proof.
  revert g. induction rows as [|row rows IH]; intros g H; [assumption|].
  rewrite populate_cons. now apply IH, index_row_nonempty.
Qed.

Lemma read_graph_name_relations graph_result g :
  outgoing_relations (read_graph_name graph_result g) = outgoing_relations g
  /\ incoming_relations (read_graph_name graph_result g) = incoming_relations g.
Proof.
  revert g. induction graph_result as [|[n|] l IH]; intros g; simpl; [now split|..];
    unfold read_graph_name in IH; now rewrite !(proj1 (IH _)), !(proj2 (IH _)).
Qed.

Lemma after_attempt_nonempty o g : index_nonempty g -> index_nonempty (after_attempt o g).
Proof.
  intros H. destruct o; simpl; try assumption.
  - unfold index_nonempty.
    now rewrite (proj1 (read_graph_name_relations _ _)),
                (proj2 (read_graph_name_relations _ _)).
  - apply populate_nonempty. split; intros k l [].
Qed.

Lemma attempt_loop_nonempty w attempt retries g :
  index_nonempty g -> index_nonempty (snd (fst (attempt_loop w attempt retries g))).
Proof.
  revert attempt g. induction retries as [|retries IH]; intros attempt g H;
    rewrite attempt_loop_run.
  - destruct (attempt_result _); now apply after_attempt_nonempty.
  - destruct (attempt_result _); [now apply after_attempt_nonempty|].
    specialize (IH (S attempt) _ (after_attempt_nonempty (attempts w attempt) g H)).
    now destruct (attempt_loop _ _ _ _) as [[? ?] ?].
Qed.

Lemma initialize_db_nonempty w g :
  index_nonempty g -> index_nonempty (snd (fst (initialize_db w g))).
Proof.
  intros H. destruct (conn g) as [c|] eqn:E.
  - now rewrite (initialize_db_connected w g c E).
  - rewrite initialize_db_fresh by assumption. now apply attempt_loop_nonempty.
Qed.

(** On globals whose stored lists are non-empty, as the handlers keep them,
    the default query is either rendered or refused for lack of a graph. *)
Lemma default_query_response_cases g :
  index_nonempty g ->
  (exists q, default_query_response g = Response (query_body q) 200)
  \/ default_query_response g = Response (error "No graph structure available") 500.
Proof.
  intros [Ho Hi]. unfold default_query_response.
  destruct (String.eqb (graph_name g) ""); simpl; [now right|].
  destruct (outgoing_relations g) as [|[source_label [|relation relations]] rest].
  - destruct (incoming_relations g) as [|[dest_label [|relation relations]] rest];
      simpl; eauto.
    exfalso. apply (Hi dest_label []); [now left | reflexivity].
  - exfalso. apply (Ho source_label []); [now left | reflexivity].
  - simpl. eauto.
Qed.

(** ** First inserted, first stored *)

Lemma add_once_headed {A} (same : A -> bool) (x : A) k k0 x0 m :
  headed_by k0 x0 m -> headed_by k0 x0 (add_once same x k m).
Proof.
  intros (l & rest & ->). unfold add_once, headed_by.
  cbn [dict_get]. destruct (String.eqb k k0) eqn:E.
  - destruct (existsb same (x0 :: l)); [eauto|]. cbn [dict_set]. rewrite E.
    apply String.eqb_eq in E. subst k. simpl. eauto.
  - destruct (dict_get k rest) as [existing|].
    + destruct (existsb same existing); [eauto|]. cbn [dict_set]. rewrite E. eauto.
    + cbn [dict_set]. rewrite E. eauto.
Qed.

Lemma populate_headed rows g s0 r0 d0 :
  headed_by s0 (OutRel r0 d0) (outgoing_relations g) ->
  headed_by d0 (InRel r0 s0) (incoming_relations g) ->
  headed_by s0 (OutRel r0 d0) (outgoing_relations (populate rows g))
  /\ headed_by d0 (InRel r0 s0) (incoming_relations (populate rows g)).
Proof.
  revert g. induction rows as [|row rows IH]; intros g Ho Hi; [now split|].
  rewrite populate_cons. apply IH;
    destruct row as [[[s|] [d|]] [r|]]; simpl; try assumption;
    rewrite ?add_outgoing_add_once, ?add_incoming_add_once;
    now apply add_once_headed.
Qed.

(** The first complete row of the catalog supplies the first key of each
    map and the first descriptor stored under it: what [next(iter(d))] and
    [d[...][0]] pick in [get_default_query]. *)
Lemma build_index_first ss ds rs g s d r rest :
  List.filter row_complete (zip3 ss ds rs) = (Some s, Some d, Some r) :: rest ->
  headed_by s (OutRel r d) (outgoing_relations (build_index ss ds rs g))
  /\ headed_by d (InRel r s) (incoming_relations (build_index ss ds rs g)).
Proof.
  intros Hrows. unfold build_index. rewrite populate_filter, Hrows, populate_cons.
  apply populate_headed; simpl; now exists [], [].
Qed.

(** * Further properties *)

(** ** The index holds the catalog and nothing else *)

Lemma add_once_origin {A} (same : A -> bool) (x : A) k k' m l' y :
  dict_get k' (add_once same x k m) = Some l' -> In y l' ->
  (exists l, dict_get k' m = Some l /\ In y l) \/ (k' = k /\ y = x).
Proof.
  unfold add_once. destruct (dict_get k m) as [existing|] eqn:E.
  - destruct (existsb same existing); [eauto|].
    rewrite dict_get_set. destruct (String.eqb k k') eqn:Ek; [|eauto].
    apply String.eqb_eq in Ek. subst k'. intros [= <-] Hin.
    apply in_app_or in Hin as [Hin|[<-|[]]]; eauto.
  - rewrite dict_get_set. destruct (String.eqb k k') eqn:Ek; [|eauto].
    apply String.eqb_eq in Ek. subst k'. intros [= <-] [<-|[]]. eauto.
Qed.

Lemma index_row_outgoing_origin row g k r d :
  has_outgoing (index_row row g) k r d ->
  has_outgoing g k r d \/ row = (Some k, Some d, Some r).
Proof.
  destruct row as [[[s|] [d'|]] [r'|]]; simpl; auto.
  intros (l & Hl & Hin). simpl in Hl. rewrite add_outgoing_add_once in Hl.
  destruct (add_once_origin _ _ _ _ _ _ _ Hl Hin) as [(l0 & Hl0 & Hin0)|[-> [= -> ->]]].
  - left. now exists l0.
  - now right.
Qed.

Lemma index_row_incoming_origin row g k r s :
  has_incoming (index_row row g) k r s ->
  has_incoming g k r s \/ row = (Some s, Some k, Some r).
Proof.
  destruct row as [[[s'|] [d'|]] [r'|]]; simpl; auto.
  intros (l & Hl & Hin). simpl in Hl. rewrite add_incoming_add_once in Hl.
  destruct (add_once_origin _ _ _ _ _ _ _ Hl Hin) as [(l0 & Hl0 & Hin0)|[-> [= -> ->]]].
  - left. now exists l0.
  - now right.
Qed.

Lemma populate_outgoing_iff rows g k r d :
  has_outgoing (populate rows g) k r d
  <-> has_outgoing g k r d \/ In (Some k, Some d, Some r) rows.
Proof.
  split.
  - revert g. induction rows as [|row rows IH]; intros g; [now left|].
    rewrite populate_cons. intros H. destruct (IH _ H) as [H'|H']; [|right; now right].
    apply index_row_outgoing_origin in H' as [H'| ->]; [now left | right; now left].
  - intros [H|H]; [now apply populate_has_outgoing|].
    now apply populate_complete.
Qed.

Lemma populate_incoming_iff rows g k r s :
  has_incoming (populate rows g) k r s
  <-> has_incoming g k r s \/ In (Some s, Some k, Some r) rows.
Proof.
  split.
  - revert g. induction rows as [|row rows IH]; intros g; [now left|].
    rewrite populate_cons. intros H. destruct (IH _ H) as [H'|H']; [|right; now right].
    apply index_row_incoming_origin in H' as [H'| ->]; [now left | right; now left].
  - intros [H|H]; [now apply populate_has_incoming|].
    now apply populate_complete.
Qed.

Lemma populate_labels_iff rows g x :
  x ∈ node_types (populate rows g) <-> x ∈ node_types g \/ label_of_rows rows x.
Proof.
  revert g. induction rows as [|row rows IH]; intros g.
  - simpl. split; [now left|]. intros [H|(s & d & r & [] & _)]. exact H.
  - rewrite populate_cons, IH. unfold label_of_rows. split.
    + intros [H|(s & d & r & Hin & Hx)].
      * destruct row as [[[s|] [d|]] [r|]]; simpl in H; auto.
        apply elem_of_union in H as [H|H];
          [|apply elem_of_union in H as [H|H]]; auto;
          apply elem_of_singleton in H; subst x;
          right; exists s, d, r; (split; [now left | auto]).
      * right. exists s, d, r. split; [now right | assumption].
    + intros [H|(s & d & r & [->|Hin] & Hx)].
      * left. now apply index_row_node_types.
      * left. simpl. rewrite !elem_of_union, !elem_of_singleton.
        destruct Hx as [-> | ->]; auto.
      * right. now exists s, d, r.
Qed.

Lemma cleared_has_nothing g :
  (forall k r d, ~ has_outgoing (clear_relations g) k r d)
  /\ (forall k r s, ~ has_incoming (clear_relations g) k r s).
Proof. split; intros k r x (l & Hl & _); discriminate. Qed.

(** X1. A descriptor is stored in the built outgoing map under [s] exactly
    when the zipped catalog has the complete row [(s, d, e)], and likewise
    for the incoming map under [d]: the build adds nothing of its own and
    keeps nothing of what the maps held before. *)
Theorem build_index_exact (ss ds rs : list cell) (g : globals) (s d e : string) :
  (has_outgoing (build_index ss ds rs g) s e d
   <-> In (Some s, Some d, Some e) (zip3 ss ds rs))
  /\ (has_incoming (build_index ss ds rs g) d e s
      <-> In (Some s, Some d, Some e) (zip3 ss ds rs)).
Proof.
  unfold build_index. rewrite populate_outgoing_iff, populate_incoming_iff.
  destruct (cleared_has_nothing g) as [Ho Hi].
  split; split; auto; intros [H|H]; auto; [now apply Ho in H | now apply Hi in H].
Qed.

(** X2. The two built maps mirror each other: [{relation: e, destination: d}]
    is stored under [s] in the outgoing map exactly when
    [{relation: e, source: s}] is stored under [d] in the incoming map. *)
Theorem build_index_mirror (ss ds rs : list cell) (g : globals) (s d e : string) :
  has_outgoing (build_index ss ds rs g) s e d
  <-> has_incoming (build_index ss ds rs g) d e s.
Proof.
  unfold build_index. rewrite populate_outgoing_iff, populate_incoming_iff.
  destruct (cleared_has_nothing g) as [Ho Hi].
  split; intros [H|H]; auto; [now apply Ho in H | now apply Hi in H].
Qed.

(** X4. After the build [node_types] holds what it held before together
    with the sources and destinations of the complete rows: labels are only
    ever added, the build does not clear the set. *)
Theorem build_index_labels (ss ds rs : list cell) (g : globals) (x : string) :
  x ∈ node_types (build_index ss ds rs g)
  <-> x ∈ node_types g \/ label_of_rows (zip3 ss ds rs) x.
Proof. unfold build_index. now rewrite populate_labels_iff. Qed.

(** X3. The first complete row of the catalog supplies the first key of
    each map and the first descriptor stored under that key. *)
Theorem first_row_heads_index (ss ds rs : list cell) (g : globals)
    (s d r : string) (rest : list catalog_row) :
  List.filter row_complete (zip3 ss ds rs) = (Some s, Some d, Some r) :: rest ->
  headed_by s (OutRel r d) (outgoing_relations (build_index ss ds rs g))
  /\ headed_by d (InRel r s) (incoming_relations (build_index ss ds rs g)).
Proof. apply build_index_first. Qed.

Lemma first_row_heads_index_witness :
  headed_by "Patient" (OutRel "TAKES" "Drug")
    (outgoing_relations
       (build_index [None; Some "Patient"; Some "Doctor"]
          [Some "Drug"; Some "Drug"; Some "Patient"]
          [Some "SKIPPED"; Some "TAKES"; Some "TREATS"] initial_globals)).
Proof.
  apply (first_row_heads_index [None; Some "Patient"; Some "Doctor"]
           [Some "Drug"; Some "Drug"; Some "Patient"]
           [Some "SKIPPED"; Some "TAKES"; Some "TREATS"] initial_globals
           "Patient" "Drug" "TAKES" [(Some "Doctor", Some "Patient", Some "TREATS")]).
  reflexivity.
Defined.

(** ** Bounded retry *)

Lemma attempt_loop_retries w retries :
  forall attempt g,
  exists k,
    k <= retries
    /\ snd (attempt_loop w attempt retries g) = map Connect (seq attempt (S k))
    /\ (forall i, i < k ->
                  exists e, attempt_result (attempts w (attempt + i)) = Raised e)
    /\ fst (fst (attempt_loop w attempt retries g))
       = attempt_result (attempts w (attempt + k))
    /\ (forall e, attempt_result (attempts w (attempt + k)) = Raised e -> k = retries)
    /\ snd (fst (attempt_loop w attempt retries g))
       = after_attempts w (seq attempt (S k)) g.
Proof.
  induction retries as [|retries IH]; intros attempt g; rewrite attempt_loop_run.
  - exists 0. rewrite Nat.add_0_r.
    destruct (attempt_result (attempts w attempt)) eqn:E; simpl;
      repeat split; auto; intros i Hi; lia.
  - destruct (attempt_result (attempts w attempt)) as [c|e] eqn:E.
    + exists 0. rewrite Nat.add_0_r, E. simpl.
      repeat split; auto; try lia; try discriminate.
    + destruct (IH (S attempt) (after_attempt (attempts w attempt) g))
        as (k & Hk & Ht & Hbefore & Hres & Hlast & Hg).
      destruct (attempt_loop w (S attempt) retries _) as [[o g'] t].
      simpl in Ht, Hres, Hg. exists (S k).
      replace (attempt + S k) with (S attempt + k) by lia.
      split; [lia|]. split; [simpl; now rewrite Ht|].
      split; [|split; [exact Hres|split]].
      * intros [|i] Hi; [rewrite Nat.add_0_r; eauto|].
        replace (attempt + S i) with (S attempt + i) by lia. apply Hbefore. lia.
      * intros e' He'. f_equal. eapply Hlast. eassumption.
      * simpl. exact Hg.
Qed.

(** X5. A call that finds no connection makes at most three connection
    attempts, numbered from 0, and stops at the first that succeeds: every
    attempt before the last one made has raised, the call's outcome is the
    outcome of the last one made, a raise is only passed on from the third
    attempt, and the globals are those the attempts made left behind. *)
Theorem initialize_db_retries (w : world) (g : globals) :
  conn g = None ->
  exists n,
    n < max_attempts
    /\ snd (initialize_db w g) = map Connect (seq 0 (S n))
    /\ (forall i, i < n -> exists e, attempt_result (attempts w i) = Raised e)
    /\ fst (fst (initialize_db w g)) = attempt_result (attempts w n)
    /\ (forall e, attempt_result (attempts w n) = Raised e -> S n = max_attempts)
    /\ snd (fst (initialize_db w g)) = after_attempts w (seq 0 (S n)) g.
Proof.
  intros Hnone. rewrite initialize_db_fresh by assumption.
  destruct (attempt_loop_retries w (max_attempts - 1) 0 g)
    as (k & Hk & Ht & Hbefore & Hres & Hlast & Hg).
  exists k. unfold max_attempts in *. simpl in *.
  repeat split; auto; try lia.
  intros e He. f_equal. eapply Hlast. eassumption.
Qed.

Lemma initialize_db_retries_witness :
  exists n,
    n < 3
    /\ snd (initialize_db world_retry initial_globals) = map Connect (seq 0 (S n))
    /\ fst (fst (initialize_db world_retry initial_globals))
       = attempt_result (attempts world_retry n).
Proof.
  destruct (initialize_db_retries world_retry initial_globals eq_refl)
    as (n & Hn & Ht & _ & Hres & _ & _).
  exists n. split; [exact Hn|]. split; [exact Ht | exact Hres].
Defined.

(** ** What a pass through [initialize_db] leaves behind *)

Lemma populate_conn rows g :
  conn (populate rows g) = conn g /\ graph_name (populate rows g) = graph_name g.
Proof.
  revert g. induction rows as [|row rows IH]; intros g; [now split|].
  rewrite populate_cons. destruct (IH (index_row row g)) as [-> ->].
  now destruct row as [[[s|] [d|]] [r|]].
Qed.

Lemma read_graph_name_rest graph_result g :
  conn (read_graph_name graph_result g) = conn g
  /\ node_types (read_graph_name graph_result g) = node_types g.
Proof.
  revert g. induction graph_result as [|[n|] l IH]; intros g; simpl; [now split|..];
    unfold read_graph_name in IH; now rewrite (proj1 (IH _)), (proj2 (IH _)).
Qed.

Lemma after_attempt_conn o g c :
  attempt_result o = Returned c -> conn (after_attempt o g) = Some c.
Proof.
  destruct o; simpl; try discriminate. intros [= ->].
  unfold build_index. rewrite (proj1 (populate_conn _ _)). simpl.
  now rewrite (proj1 (read_graph_name_rest _ _)).
Qed.

(** A property of the globals that failed attempts keep is still there when
    the loop raises; what a successful attempt establishes is there when it
    returns. *)
Lemma attempt_loop_inv (P : globals -> Prop) (Q : connection -> globals -> Prop) w :
  (forall o g e, P g -> attempt_result o = Raised e -> P (after_attempt o g)) ->
  (forall o g c, P g -> attempt_result o = Returned c -> Q c (after_attempt o g)) ->
  forall retries attempt g,
    P g ->
    match fst (attempt_loop w attempt retries g) with
    | (Returned c, g') => Q c g'
    | (Raised _, g') => P g'
    end.
Proof.
  intros Hfail Hok. induction retries as [|retries IH]; intros attempt g HP;
    rewrite attempt_loop_run.
  - destruct (attempt_result (attempts w attempt)) eqn:E; simpl; eauto.
  - destruct (attempt_result (attempts w attempt)) eqn:E; simpl; [eauto|].
    specialize (IH (S attempt) _ (Hfail _ _ _ HP E)).
    now destruct (attempt_loop w (S attempt) retries _) as [[[c|e'] g'] t].
Qed.

Lemma initialize_db_returned_conn w g c :
  fst (fst (initialize_db w g)) = Returned c ->
  conn (snd (fst (initialize_db w g))) = Some c.
Proof.
  destruct (conn g) as [c0|] eqn:E.
  - rewrite (initialize_db_connected w g c0 E). simpl. now intros [= <-].
  - rewrite initialize_db_fresh by assumption.
    pose proof (attempt_loop_inv (fun _ => True) (fun c g => conn g = Some c) w
                  (fun _ _ _ _ _ => I)
                  (fun o g c _ H => after_attempt_conn o g c H)
                  (max_attempts - 1) 0 g I) as H.
    destruct (attempt_loop w 0 (max_attempts - 1) g) as [[[c'|e] g'] t]; simpl in *;
      [now intros [= <-] | discriminate].
Qed.

(** X6. Initialisation is memoised: once a call has returned a connection,
    every later call returns that same connection, makes no attempt and
    changes nothing, whatever the database would now answer. *)
Theorem initialize_db_memoized (w w' : world) (g : globals) (c : connection) :
  fst (fst (initialize_db w g)) = Returned c ->
  initialize_db w' (snd (fst (initialize_db w g)))
  = (Returned c, snd (fst (initialize_db w g)), []).
Proof.
  intros H. apply initialize_db_connected. now apply initialize_db_returned_conn.
Qed.

Lemma initialize_db_memoized_witness :
  initialize_db world_no_drug_table
    (snd (fst (initialize_db world_clinic initial_globals)))
  = (Returned (Conn 1), snd (fst (initialize_db world_clinic initial_globals)), []).
Proof.
  apply (initialize_db_memoized world_clinic world_no_drug_table initial_globals (Conn 1)).
  reflexivity.
Defined.

(** ** The graph name *)

Lemma read_graph_name_app l1 l2 g :
  read_graph_name (l1 ++ l2) g = read_graph_name l2 (read_graph_name l1 g).
Proof. unfold read_graph_name. apply fold_left_app. Qed.

Lemma read_graph_name_nulls rows g :
  Forall is_null rows -> read_graph_name rows g = g.
Proof.
  induction 1 as [|c rows Hc _ IH]; [reflexivity|].
  unfold is_null in Hc. subst c. exact IH.
Qed.

(** X7. Lines 92-94 keep the last non-null [property_graph] row as the
    graph name; when every row is null, or there is none, the globals are
    left exactly as they were, old graph name included. *)
Theorem read_graph_name_last (before after rows : list cell) (n : string)
    (g : globals) :
  (Forall is_null after ->
   graph_name (read_graph_name (before ++ Some n :: after) g) = n)
  /\ (Forall is_null rows -> read_graph_name rows g = g).
Proof.
  split; [|apply read_graph_name_nulls].
  intros Hafter. rewrite read_graph_name_app.
  change (Some n :: after) with ([Some n] ++ after).
  rewrite read_graph_name_app, (read_graph_name_nulls after) by assumption.
  reflexivity.
Qed.

Lemma read_graph_name_last_witness :
  graph_name (read_graph_name [Some "first"; None; Some "second"; None] initial_globals)
  = "second"
  /\ read_graph_name [None; None] initial_globals = initial_globals.
Proof.
  destruct (read_graph_name_last [Some "first"; None] [None] [None; None] "second"
              initial_globals) as [Hlast Hnone].
  split.
  - apply Hlast. repeat constructor.
  - apply Hnone. repeat constructor.
Defined.

(** ** Invariants of the running server *)

Lemma populate_node_types_eq rows g h :
  node_types g = node_types h ->
  node_types (populate rows g) = node_types (populate rows h).
Proof.
  revert g h. induction rows as [|row rows IH]; intros g h H; [assumption|].
  rewrite !populate_cons. apply IH.
  destruct row as [[[s|] [d|]] [r|]]; simpl; congruence.
Qed.

Lemma build_index_built_from ss ds rs g :
  node_types g = ∅ -> built_from (zip3 ss ds rs) (build_index ss ds rs g).
Proof.
  intros Hnt. unfold built_from, build_index.
  destruct (populate_relations (zip3 ss ds rs) (clear_relations g) initial_globals
              eq_refl eq_refl) as [Ho Hi].
  split; [assumption|]. split; [assumption|].
  apply populate_node_types_eq. simpl. exact Hnt.
Qed.

Lemma after_failed_attempt_pristine o g e :
  built_from [] g /\ (conn g = None -> g = initial_globals) ->
  attempt_result o = Raised e ->
  built_from [] (after_attempt o g)
  /\ (conn (after_attempt o g) = None -> after_attempt o g = initial_globals).
Proof.
  intros [(Ho & Hi & Hn) Hc] Hres. destruct o; simpl in *; try discriminate.
  - now split.
  - split; [now split | discriminate].
  - destruct (read_graph_name_relations graph_result (set_conn c g)) as [Ho' Hi'].
    destruct (read_graph_name_rest graph_result (set_conn c g)) as [Hc' Hn'].
    unfold built_from. rewrite Ho', Hi', Hn', Hc'. simpl.
    split; [now split | discriminate].
Qed.

Lemma after_successful_attempt_built o g c :
  built_from [] g /\ (conn g = None -> g = initial_globals) ->
  attempt_result o = Returned c ->
  coherent (after_attempt o g).
Proof.
  intros [(Ho & Hi & Hn) Hc] Hres.
  pose proof (after_attempt_conn o g c Hres) as Hconn.
  split; [|rewrite Hconn; discriminate].
  destruct o; simpl in *; try discriminate.
  eexists. apply build_index_built_from.
  now rewrite (proj2 (read_graph_name_rest _ _)).
Qed.

Lemma initialize_db_coherent w g : coherent g -> coherent (snd (fst (initialize_db w g))).
Proof.
  intros [Hbuilt Hpristine]. destruct (conn g) as [c|] eqn:E.
  - rewrite (initialize_db_connected w g c E). simpl.
    split; [exact Hbuilt | rewrite E; discriminate].
  - rewrite initialize_db_fresh by assumption.
    specialize (Hpristine eq_refl). subst g.
    pose proof (attempt_loop_inv
                  (fun g => built_from [] g /\ (conn g = None -> g = initial_globals))
                  (fun _ g => coherent g) w
                  (fun o g e HP H => after_failed_attempt_pristine o g e HP H)
                  (fun o g c HP H => after_successful_attempt_built o g c HP H)
                  (max_attempts - 1) 0 initial_globals) as H.
    destruct (attempt_loop w 0 (max_attempts - 1) initial_globals) as [[[c|e] g'] t];
      simpl in *.
    + apply H. split; [now split | reflexivity].
    + destruct H as [Hb Hc]; [split; [now split | reflexivity]|].
      split; [now exists [] | exact Hc].
Qed.

Lemma reachable_coherent g : reachable g -> coherent g.
Proof.
  induction 1 as [|w data g _ IH|w g _ IH|w g _ IH|w data g _ IH].
  - split; [now exists [] | reflexivity].
  - destruct (handlers_globals w data g) as ([-> | ->] & _);
      [assumption | now apply initialize_db_coherent].
  - destruct (handlers_globals w (Body JNull) g) as (_ & -> & _).
    now apply initialize_db_coherent.
  - destruct (handlers_globals w (Body JNull) g) as (_ & _ & -> & _).
    now apply initialize_db_coherent.
  - destruct (handlers_globals w data g) as (_ & _ & _ & [-> | ->]);
      [assumption | now apply initialize_db_coherent].
Qed.

Lemma dict_get_In_pair {V} (k : string) (v : V) (d : dict V) :
  dict_get k d = Some v -> In (k, v) d.
Proof.
  induction d as [|[k' v'] d IH]; simpl; [discriminate|].
  destruct (String.eqb k k') eqn:E.
  - apply String.eqb_eq in E. subst. intros [= ->]. now left.
  - intros H. right. now apply IH.
Qed.

(** The keys of the maps built from nothing are the sources, resp. the
    destinations, of the complete rows. *)
Lemma populate_keys rows k :
  (In k (map fst (outgoing_relations (populate rows initial_globals)))
   <-> exists d r, In (Some k, Some d, Some r) rows)
  /\ (In k (map fst (incoming_relations (populate rows initial_globals)))
      <-> exists s r, In (Some s, Some k, Some r) rows).
Proof.
  assert (index_nonempty (populate rows initial_globals)) as [Hno Hni]
      by (apply populate_nonempty; split; intros ? ? []).
  split; split.
  - intros H. apply dict_get_In in H as [[|[r d] l] Hl].
    + apply dict_get_In_pair, Hno in Hl. contradiction.
    + exists d, r.
      assert (has_outgoing (populate rows initial_globals) k r d) as Hh
          by (exists (OutRel r d :: l); split; [assumption | now left]).
      apply populate_outgoing_iff in Hh as [(l0 & Hl0 & _)|Hh]; [discriminate | exact Hh].
  - intros (d & r & Hin).
    destruct (populate_complete rows initial_globals k d r Hin) as ((l & Hl & _) & _).
    apply dict_get_In. eauto.
  - intros H. apply dict_get_In in H as [[|[r s] l] Hl].
    + apply dict_get_In_pair, Hni in Hl. contradiction.
    + exists s, r.
      assert (has_incoming (populate rows initial_globals) k r s) as Hh
          by (exists (InRel r s :: l); split; [assumption | now left]).
      apply populate_incoming_iff in Hh as [(l0 & Hl0 & _)|Hh]; [discriminate | exact Hh].
  - intros (s & r & Hin).
    destruct (populate_complete rows initial_globals s k r Hin) as (_ & (l & Hl & _) & _).
    apply dict_get_In. eauto.
Qed.

(** X8. In every state the server reaches, [node_types] is exactly the set
    of keys of the two maps: a label is listed when, and only when, it has
    an outgoing or an incoming edge descriptor.  In particular both ends of
    every stored descriptor are listed. *)
Theorem reachable_labels_exact (g : globals) :
  reachable g ->
  (forall x, x ∈ node_types g
             <-> In x (map fst (outgoing_relations g))
                 \/ In x (map fst (incoming_relations g)))
  /\ (forall s r d, has_outgoing g s r d -> s ∈ node_types g /\ d ∈ node_types g)
  /\ (forall d r s, has_incoming g d r s -> s ∈ node_types g /\ d ∈ node_types g).
Proof.
  intros Hr. destruct (reachable_coherent g Hr) as [(rows & Ho & Hi & Hn) _].
  assert (forall x, x ∈ node_types g <-> label_of_rows rows x) as Hlabels.
  { intros x. rewrite Hn, populate_labels_iff. split; [|now right].
    intros [H|H]; [|exact H]. now apply not_elem_of_empty in H. }
  split; [|split].
  - intros x. rewrite Hlabels, Ho, Hi.
    rewrite (proj1 (populate_keys rows x)), (proj2 (populate_keys rows x)).
    unfold label_of_rows. split.
    + intros (s & d & r & Hin & [-> | ->]); [left | right]; eauto.
    + intros [(d & r & Hin)|(s & r & Hin)]; [exists x, d, r | exists s, x, r]; auto.
  - intros s r d H. unfold has_outgoing in H. rewrite Ho in H.
    apply populate_outgoing_iff in H as [(l & Hl & _)|H]; [discriminate|].
    rewrite !Hlabels. split; exists s, d, r; auto.
  - intros d r s H. unfold has_incoming in H. rewrite Hi in H.
    apply populate_incoming_iff in H as [(l & Hl & _)|H]; [discriminate|].
    rewrite !Hlabels. split; exists s, d, r; auto.
Qed.

Lemma reachable_labels_exact_witness :
  let g := snd (fst (get_node_types world_clinic initial_globals)) in
  "Doctor" ∈ node_types g
  <-> In "Doctor" (map fst (outgoing_relations g))
      \/ In "Doctor" (map fst (incoming_relations g)).
Proof.
  cbv zeta.
  destruct (reachable_labels_exact
              (snd (fst (get_node_types world_clinic initial_globals)))
              (reachable_node_types world_clinic initial_globals reachable_start))
    as [H _].
  apply H.
Defined.

(** X9. In every state the server reaches the two maps mirror each other. *)
Theorem reachable_mirror (g : globals) (s d e : string) :
  reachable g -> (has_outgoing g s e d <-> has_incoming g d e s).
Proof.
  intros Hr. destruct (reachable_coherent g Hr) as [(rows & Ho & Hi & _) _].
  unfold has_outgoing, has_incoming. rewrite Ho, Hi.
  fold (has_outgoing (populate rows initial_globals) s e d).
  fold (has_incoming (populate rows initial_globals) d e s).
  rewrite populate_outgoing_iff, populate_incoming_iff.
  split; intros [(l & Hl & _)|H]; try discriminate; now right.
Qed.

Lemma reachable_mirror_witness :
  let g := snd (fst (get_default_query world_clinic initial_globals)) in
  has_outgoing g "Doctor" "TREATS" "Patient" <-> has_incoming g "Patient" "TREATS" "Doctor".
Proof.
  cbv zeta.
  apply (reachable_mirror _ "Doctor" "Patient" "TREATS"
           (reachable_default_query world_clinic initial_globals reachable_start)).
Defined.

(** X10. In every state the server reaches no stored list repeats a
    descriptor, no map repeats a key and no key is stored with an empty
    list. *)
Theorem reachable_well_formed (g : globals) :
  reachable g -> index_deduplicated g /\ index_nonempty g.
Proof.
  intros Hr. destruct (reachable_coherent g Hr) as [(rows & Ho & Hi & _) _].
  unfold index_deduplicated, index_nonempty. rewrite Ho, Hi. split.
  - apply populate_deduplicated.
    repeat split; simpl; try apply List.NoDup_nil; intros ? ? ? ?; discriminate.
  - apply populate_nonempty. split; intros ? ? [].
Qed.

Lemma reachable_well_formed_witness :
  index_deduplicated (snd (fst (get_node_types world_clinic initial_globals)))
  /\ index_nonempty (snd (fst (get_node_types world_clinic initial_globals))).
Proof.
  apply (reachable_well_formed _
           (reachable_node_types world_clinic initial_globals reachable_start)).
Defined.

(** X11. As long as no connection is bound the globals are those of module
    load: a request that fails before [duckdb.connect] succeeds leaves no
    trace in them. *)
Theorem reachable_unconnected (g : globals) :
  reachable g -> conn g = None -> g = initial_globals.
Proof. intros Hr. exact (proj2 (reachable_coherent g Hr)). Qed.

Lemma reachable_unconnected_witness :
  snd (fst (get_node_types
              (database (fun _ => ConnectRaises "IO Error: could not set lock")
                     (execute world_clinic)) initial_globals))
  = initial_globals.
Proof.
  apply reachable_unconnected.
  - apply reachable_node_types, reachable_start.
  - reflexivity.
Defined.

(** ** Raw queries: errors *)

(** X12. A raw-query request without a query (there is no object to read
    it from, the object lacks the key, or the key holds [null], an empty
    string or another falsy value) makes no database call and leaves the
    globals unchanged.  The answer is the 400 error 'Query is required'
    when the body is an object, and the 500 'Server error' of the outer
    handler when [request.json] raised or the body is not an object. *)
Theorem execute_query_missing_query (w : world) (r : request) (g : globals) :
  has_field "query" r = false ->
  execute_query w r g
  = (match body_error r with
     | Some e => server_error e
     | None => Response (error "Query is required") 400
     end, g, []).
Proof.
  intros H. destruct (body_error r) as [e|] eqn:E.
  - now apply execute_query_no_object.
  - apply body_error_none in E as [data ->]. now apply execute_query_invalid.
Qed.

Lemma execute_query_missing_query_witness :
  execute_query world_clinic (obj [("query", JStr "")]) initial_globals
  = (Response (error "Query is required") 400, initial_globals, [])
  /\ execute_query world_clinic (Body (JList [])) initial_globals
     = (Response (error "Server error: 'list' object has no attribute 'get'") 500,
        initial_globals, []).
Proof.
  split.
  - apply (execute_query_missing_query world_clinic (obj [("query", JStr "")])).
    reflexivity.
  - apply (execute_query_missing_query world_clinic (Body (JList []))).
    reflexivity.
Defined.



(** ** Raw queries: the usual case of distinct column names *)

Lemma dict_set_absent {V} (k : string) (v : V) (d : dict V) :
  ~ In k (map fst d) -> dict_set k v d = d ++ [(k, v)].
Proof.
  induction d as [|[k' v'] d IH]; simpl; intros H; [reflexivity|].
  destruct (String.eqb_spec k k') as [->|Hne]; [tauto|].
  rewrite IH by tauto. reflexivity.
Qed.

Lemma nth_error_split_at {A} (l : list A) i x :
  nth_error l i = Some x ->
  firstn (S i) l = firstn i l ++ [x] /\ skipn i l = x :: skipn (S i) l.
Proof.
  revert i. induction l as [|a l IH]; intros [|i]; simpl; try discriminate.
  - now intros [= ->].
  - intros H. destruct (IH i H) as [-> Hs]. split; [reflexivity|].
    destruct l; [destruct i; discriminate | exact Hs].
Qed.

Lemma fill_row_combine column_names :
  List.NoDup column_names ->
  forall r start row_dict,
    start + length r <= length column_names ->
    map fst row_dict = firstn start column_names ->
    fill_row column_names start r row_dict
    = row_dict ++ combine (skipn start column_names) r.
Proof.
  intros Hnd. induction r as [|v r IH]; intros start row_dict Hlen Hkeys.
  - simpl. destruct (skipn start column_names); simpl; now rewrite app_nil_r.
  - simpl in Hlen.
    destruct (nth_error column_names start) as [n|] eqn:En;
      [|apply nth_error_None in En; lia].
    destruct (nth_error_split_at _ _ _ En) as [Hf Hs].
    simpl. rewrite (col_name_schema _ _ _ En), dict_set_absent.
    + rewrite IH.
      * rewrite Hs. simpl. now rewrite <- app_assoc.
      * lia.
      * rewrite map_app, Hkeys, Hf. reflexivity.
    + rewrite Hkeys. rewrite <- (firstn_skipn start column_names), Hs in Hnd.
      now apply List.NoDup_remove_2 in Hnd; intros Hin; apply Hnd, in_or_app; left.
Qed.

(** X14. When the description names every position of the rows and no name
    twice, each row's dictionary is the list of [(name, value)] pairs of
    that row, in column order: nothing is overwritten and nothing gets a
    synthetic name. *)
Theorem result_dicts_distinct_columns (column_names : list string)
    (results : list row) :
  List.NoDup column_names ->
  Forall (fun r => length r <= length column_names) results ->
  to_result_dicts column_names results = map (combine column_names) results.
Proof.
  intros Hnd Hlen. unfold to_result_dicts. apply map_ext_in.
  intros r Hin. rewrite List.Forall_forall in Hlen.
  now rewrite (fill_row_combine column_names Hnd r 0 []) by (simpl; auto).
Qed.

Lemma result_dicts_distinct_columns_witness :
  to_result_dicts ["name"; "dose"] [[VStr "aspirin"; VInt 7]; [VStr "ibuprofen"]]
  = [[("name", VStr "aspirin"); ("dose", VInt 7)]; [("name", VStr "ibuprofen")]].
Proof.
  rewrite result_dicts_distinct_columns.
  - reflexivity.
  - repeat constructor; simpl; intuition discriminate.
  - repeat constructor.
Defined.

(** ** Node labels *)

(** X15. The node-types request never executes a query.  When
    initialisation returns it answers 200 with the members of [node_types],
    each listed once; when initialisation raises it answers the 500 'Server
    error' with that message. *)
Theorem get_node_types_answer (w : world) (g : globals) :
  (forall q, ~ In (Execute q) (snd (get_node_types w g)))
  /\ (forall c, fst (fst (initialize_db w g)) = Returned c ->
                exists labels,
                  fst (fst (get_node_types w g)) = Response (results_labels labels) 200
                  /\ List.NoDup labels
                  /\ forall x, In x labels
                               <-> x ∈ node_types (snd (fst (initialize_db w g))))
  /\ (forall e, fst (fst (initialize_db w g)) = Raised e ->
                fst (fst (get_node_types w g))
                = Response (error ("Server error: " +:+ e)) 500).
Proof.
  rewrite get_node_types_run.
  pose proof (initialize_db_no_execute w g) as Hquiet.
  destruct (initialize_db w g) as [[[c|e] g1] t0]; simpl in *;
    (split; [exact Hquiet|]); split; try discriminate.
  - intros _ _. exists (elements (node_types g1)). split; [reflexivity|]. split.
    + apply NoDup_ListNoDup, NoDup_elements.
    + intros x. rewrite <- list_elem_of_In. apply elem_of_elements.
  - now intros e' [= ->].
Qed.

Lemma get_node_types_answer_witness :
  exists labels,
    fst (fst (get_node_types world_clinic initial_globals))
    = Response (results_labels labels) 200
    /\ List.NoDup labels
    /\ (In "Patient" labels /\ In "Drug" labels /\ In "Doctor" labels).
Proof.
  destruct (get_node_types_answer world_clinic initial_globals) as (_ & H & _).
  destruct (H (Conn 1) eq_refl) as (labels & Hresp & Hnd & Hin).
  exists labels. split; [exact Hresp|]. split; [exact Hnd|].
  repeat split; apply Hin; vm_compute; reflexivity.
Defined.

(** ** Default query: what it can answer *)

Lemma coherent_nonempty g : coherent g -> index_nonempty g.
Proof.
  intros [(rows & Ho & Hi & _) _]. unfold index_nonempty. rewrite Ho, Hi.
  apply populate_nonempty. split; intros ? ? [].
Qed.

(** X16. In every state the server reaches, the default-query request has
    three possible answers only: a rendered query (200), 'No graph structure
    available' (500), or the 'Server error' of a failed initialisation
    (500).  The branches 'Could not generate default query' and the
    out-of-range index are never taken, and no query is executed. *)
Theorem default_query_answers (w : world) (g : globals) :
  reachable g ->
  let r := fst (fst (get_default_query w g)) in
  ((exists q, r = Response (query_body q) 200)
   \/ r = Response (error "No graph structure available") 500
   \/ (exists e, fst (fst (initialize_db w g)) = Raised e
                 /\ r = Response (error ("Server error: " +:+ e)) 500))
  /\ forall q, ~ In (Execute q) (snd (get_default_query w g)).
Proof.
  intros Hr r. subst r.
  pose proof (coherent_nonempty _ (initialize_db_coherent w g (reachable_coherent g Hr)))
    as Hne.
  pose proof (initialize_db_no_execute w g) as Hquiet.
  rewrite get_default_query_run.
  destruct (initialize_db w g) as [[[c|e] g1] t0]; simpl in *; (split; [|exact Hquiet]).
  - destruct (default_query_response_cases g1 Hne) as [H|H]; auto.
  - right. right. exists e. split; reflexivity.
Qed.

Lemma default_query_answers_witness :
  (exists q, fst (fst (get_default_query world_clinic initial_globals))
             = Response (query_body q) 200)
  \/ fst (fst (get_default_query world_clinic initial_globals))
     = Response (error "No graph structure available") 500
  \/ (exists e, fst (fst (initialize_db world_clinic initial_globals)) = Raised e
                /\ fst (fst (get_default_query world_clinic initial_globals))
                   = Response (error ("Server error: " +:+ e)) 500).
Proof.
  exact (proj1 (default_query_answers world_clinic initial_globals reachable_start)).
Defined.

(** X17. On a server without a connection whose first attempt succeeds, the
    default query is the one for the first complete row of the catalog:
    source, edge and destination labels of that row, under the graph name
    the attempt left, provided that name is not empty. *)
Theorem default_query_first_row (w : world) (g : globals) (c : connection)
    (graph_result ss ds rs : list cell) (s d r : string) (rest : list catalog_row) :
  conn g = None ->
  attempts w 0 = AttemptOk c graph_result ss ds rs ->
  List.filter row_complete (zip3 ss ds rs) = (Some s, Some d, Some r) :: rest ->
  let g1 := after_attempt (attempts w 0) g in
  graph_name g1 <> "" ->
  get_default_query w g
  = (Response (query_body (default_query_text (graph_name g1) s r d)) 200,
     g1, [Connect 0]).
Proof.
  intros Hnone Hok Hrows g1 Hname.
  rewrite get_default_query_run, initialize_db_fresh, attempt_loop_run by assumption.
  fold g1. rewrite Hok. simpl attempt_result. cbv iota beta. f_equal. f_equal.
  unfold default_query_response.
  apply String.eqb_neq in Hname. rewrite Hname.
  assert (headed_by s (OutRel r d) (outgoing_relations g1)) as (l & rest' & ->).
  { subst g1. rewrite Hok. simpl. now apply (build_index_first ss ds rs _ s d r rest). }
  reflexivity.
Qed.

Lemma default_query_first_row_witness :
  fst (fst (get_default_query world_clinic initial_globals))
  = Response (query_body (default_query_text "drug_graph" "Patient" "TAKES" "Drug")) 200.
Proof.
  rewrite (default_query_first_row world_clinic initial_globals (Conn 1)
             [Some "drug_graph"] [Some "Patient"; Some "Doctor"]
             [Some "Drug"; Some "Patient"] [Some "TAKES"; Some "TREATS"]
             "Patient" "Drug" "TAKES" [(Some "Doctor", Some "Patient", Some "TREATS")]).
  - reflexivity.
  - reflexivity.
  - reflexivity.
  - reflexivity.
  - discriminate.
Defined.

(** ** Neighbour lookup: defaults, filter, queries *)

Lemma get_neighbors_ext w data data' g :
  data_get "label" data = data_get "label" data' ->
  data_get "id" data = data_get "id" data' ->
  data_get_default "direction" "both" data
  = data_get_default "direction" "both" data' ->
  data_get "relationshipType" data = data_get "relationshipType" data' ->
  get_neighbors w (obj data) g = get_neighbors w (obj data') g.
Proof.
  unfold get_neighbors, respond, obj, request_data. rewrite !bind_ret_run.
  cbv zeta. now intros -> -> -> ->.
Qed.

(** X18. A neighbour request without a [direction] key is treated exactly
    like the same request with direction "both". *)
Theorem neighbors_default_direction (w : world) (data : json_obj) (g : globals) :
  dict_get "direction" data = None ->
  get_neighbors w (obj data) g = get_neighbors w (obj (with_direction "both" data)) g.
Proof.
  intros Hd. apply get_neighbors_ext;
    rewrite ?data_get_with_direction, ?data_get_direction by discriminate;
    try reflexivity.
  unfold data_get_default. now rewrite Hd.
Qed.

Lemma neighbors_default_direction_witness :
  get_neighbors world_clinic (obj [("label", JStr "Patient"); ("id", JStr "42")])
    initial_globals
  = get_neighbors world_clinic
      (obj [("label", JStr "Patient"); ("id", JStr "42"); ("direction", JStr "both")])
      initial_globals.
Proof.
  apply (neighbors_default_direction world_clinic
           [("label", JStr "Patient"); ("id", JStr "42")] initial_globals).
  reflexivity.
Defined.

Lemma run_parts_Forall (P : neighbor_entry -> Prop) w p_out p_in l :
  (forall q group rows, In (q, group) (p_out ++ p_in) -> P (group rows)) ->
  fst (run_parts w p_out p_in) = Returned l -> Forall P l.
Proof.
  intros HP. unfold run_parts.
  destruct (run_plan w p_out []) as [[out|e] t1] eqn:E1; [|discriminate].
  rewrite run_plan_acc.
  destruct (run_plan w p_in []) as [[inc|e] t2] eqn:E2; [|discriminate].
  simpl. intros [= <-]. apply Forall_app. split.
  - eapply run_plan_Forall; [|eassumption].
    intros q group rows Hin. apply (HP q). apply in_or_app. now left.
  - eapply run_plan_Forall; [|eassumption].
    intros q group rows Hin. apply (HP q). apply in_or_app. now right.
Qed.

Lemma neighbors_response_results o l :
  neighbors_response o = Response (results_neighbors l) 200 -> o = Returned l.
Proof.
  destruct o as [l'|e]; simpl; [|discriminate].
  destruct (first_refused (groups_cells l')); [discriminate | now intros [= ->]].
Qed.

Lemma planned_relation w g node_label node_id direction t q group rows :
  t <> "" ->
  In (q, group)
     (outgoing_part w g node_label node_id direction (JStr t)
      ++ incoming_part w g node_label node_id direction (JStr t)) ->
  ne_relation (group rows) = t.
Proof.
  intros Ht Hin. apply String.eqb_neq in Ht.
  unfold outgoing_part, incoming_part, outgoing_plan, incoming_plan in Hin.
  apply in_app_or in Hin as [Hin|Hin];
    destruct (if json_in _ _ then _ else _); try (now destruct Hin);
    apply in_map_iff in Hin as (r_d & [= <- <-] & Hf);
    apply filter_In in Hf as [_ Hf]; simpl;
    unfold filtered_out in Hf; simpl in Hf; rewrite Ht in Hf; simpl in Hf;
    apply negb_true_iff, negb_false_iff, String.eqb_eq in Hf; exact Hf.
Qed.

(** X19. With a non-empty [relationshipType] every group of a results
    response has that relation: descriptors of other edge types are skipped
    without a query. *)
Theorem neighbors_filter (w : world) (data : json_obj) (g : globals)
    (t : string) (l : list neighbor_entry) :
  data_get "relationshipType" data = JStr t -> t <> "" ->
  fst (fst (get_neighbors w (obj data) g)) = Response (results_neighbors l) 200 ->
  Forall (fun e => ne_relation e = t) l.
Proof.
  intros Hrel Ht.
  destruct (truthy (data_get "label" data)) eqn:Hl;
    [destruct (truthy (data_get "id" data)) eqn:Hi|];
    try (rewrite get_neighbors_invalid by auto; discriminate).
  rewrite get_neighbors_run by assumption.
  destruct (initialize_db w g) as [[[c|e] g1] t0]; [|discriminate].
  destruct (guard_failure w _ _); [discriminate|].
  rewrite Hrel.
  match goal with
  | |- context [run_parts ?w' ?po ?pi] =>
      pose proof (run_parts_Forall (fun e => ne_relation e = t) w' po pi l) as H;
      destruct (run_parts w' po pi) as [o tr]
  end.
  simpl in *. intros Hresp. apply neighbors_response_results in Hresp. apply H.
  - intros q group rows Hin. eapply planned_relation; eassumption.
  - exact Hresp.
Qed.

(** [Patient] has an outgoing TAKES and an incoming TREATS descriptor; the
    filter keeps the first only. *)
Lemma neighbors_filter_witness :
  Forall (fun e => ne_relation e = "TAKES")
    [NeighborEntry "TAKES" (Some "Drug") None "outgoing" [[VStr "aspirin"]]].
Proof.
  apply (neighbors_filter world_clinic
           [("label", JStr "Patient"); ("id", JStr "42");
            ("relationshipType", JStr "TAKES")] initial_globals "TAKES").
  - reflexivity.
  - discriminate.
  - reflexivity.
Defined.

Lemma run_plan_rows w plan l t :
  (forall q group rows, In (q, group) plan -> ne_results (group rows) = rows) ->
  run_plan w plan [] = (Returned l, t) ->
  t = map Execute (map fst plan)
  /\ Forall2 (fun q e => exists r, execute w q = inr r /\ ne_results e = fetchall r)
             (map fst plan) l.
Proof.
  revert l t. induction plan as [|[q group] plan IH]; intros l t Hrows; simpl.
  - intros [= <- <-]. split; [reflexivity | constructor].
  - destruct (execute w q) as [e|r] eqn:Eq; [discriminate|].
    rewrite run_plan_acc.
    destruct (run_plan w plan []) as [[l'|e] t'] eqn:E; [|discriminate].
    intros [= <- <-].
    destruct (IH l' t') as [-> HF]; [|reflexivity|].
    + intros q' group' rows Hin. apply (Hrows q'). now right.
    + split; [reflexivity|]. simpl. constructor; [|exact HF].
      exists r. split; [exact Eq | apply (Hrows q); now left].
Qed.

Lemma planned_rows w g node_label node_id direction relationship_type q group rows :
  In (q, group)
     (outgoing_part w g node_label node_id direction relationship_type
      ++ incoming_part w g node_label node_id direction relationship_type) ->
  ne_results (group rows) = rows.
Proof.
  unfold outgoing_part, incoming_part, outgoing_plan, incoming_plan. intros Hin.
  apply in_app_or in Hin as [Hin|Hin];
    destruct (if json_in _ _ then _ else _); try (now destruct Hin);
    apply in_map_iff in Hin as (r_d & [= <- <-] & _); reflexivity.
Qed.

Lemma run_parts_rows w p_out p_in l :
  (forall q group rows, In (q, group) (p_out ++ p_in) -> ne_results (group rows) = rows) ->
  fst (run_parts w p_out p_in) = Returned l ->
  snd (run_parts w p_out p_in) = map Execute (map fst (p_out ++ p_in))
  /\ Forall2 (fun q e => exists r, execute w q = inr r /\ ne_results e = fetchall r)
             (map fst (p_out ++ p_in)) l.
Proof.
  intros Hrows. unfold run_parts.
  destruct (run_plan w p_out []) as [[out|e] t1] eqn:E1; [|discriminate].
  rewrite run_plan_acc.
  destruct (run_plan w p_in []) as [[inc|e] t2] eqn:E2; [|discriminate].
  simpl. intros [= <-].
  destruct (run_plan_rows w p_out out t1) as [-> Ho]; [|assumption|].
  { intros q group rows Hin. apply (Hrows q). apply in_or_app. now left. }
  destruct (run_plan_rows w p_in inc t2) as [-> Hi]; [|assumption|].
  { intros q group rows Hin. apply (Hrows q). apply in_or_app. now right. }
  rewrite !map_app. split; [reflexivity|]. now apply Forall2_app.
Qed.

(** X20. When a neighbour request is answered with results, the database
    calls after initialisation are exactly one execution per returned group,
    in the order of the groups; each of them succeeded and each group holds
    the rows its query returned, unchanged. *)
Theorem neighbors_one_query_per_group (w : world) (request : request) (g : globals)
    (l : list neighbor_entry) :
  fst (fst (get_neighbors w request g)) = Response (results_neighbors l) 200 ->
  exists queries,
    snd (get_neighbors w request g) = snd (initialize_db w g) ++ map Execute queries
    /\ Forall2 (fun q e => exists r, execute w q = inr r /\ ne_results e = fetchall r)
               queries l.
Proof.
  destruct (body_error request) as [e|] eqn:Eb;
    [rewrite (get_neighbors_no_object w request g e Eb); discriminate|].
  apply body_error_none in Eb as [data ->].
  destruct (truthy (data_get "label" data)) eqn:Hl;
    [destruct (truthy (data_get "id" data)) eqn:Hi|];
    try (rewrite get_neighbors_invalid by auto; discriminate).
  rewrite get_neighbors_run by assumption.
  destruct (initialize_db w g) as [[[c|e] g1] t0]; [|discriminate].
  destruct (guard_failure w _ _); [discriminate|].
  match goal with
  | |- context [run_parts ?w' ?po ?pi] =>
      pose proof (run_parts_rows w' po pi l) as H;
      destruct (run_parts w' po pi) as [o tr]
  end.
  simpl in *. intros Hresp. apply neighbors_response_results in Hresp.
  destruct H as [-> HF]; [|exact Hresp|].
  - intros q group rows Hin. eapply planned_rows. eassumption.
  - eexists. split; [reflexivity | exact HF].
Qed.

Lemma neighbors_one_query_per_group_witness :
  exists queries,
    snd (get_neighbors world_clinic (obj [("label", JStr "Patient"); ("id", JStr "42")])
           initial_globals)
    = [Connect 0] ++ map Execute queries
    /\ length queries = 2.
Proof.
  destruct (neighbors_one_query_per_group world_clinic
              (obj [("label", JStr "Patient"); ("id", JStr "42")]) initial_globals
              [NeighborEntry "TAKES" (Some "Drug") None "outgoing" [[VStr "aspirin"]];
               NeighborEntry "TREATS" None (Some "Doctor") "incoming" [[VStr "aspirin"]]]
              eq_refl) as (queries & Ht & HF).
  exists queries. split; [exact Ht|].
  apply Forall2_length in HF. exact HF.
Defined.

(** ** Requests on a connected server *)

Lemma run_plan_trace w plan acc : Forall is_execute (snd (run_plan w plan acc)).
Proof.
  revert acc. induction plan as [|[q group] plan IH]; intros acc; simpl.
  - constructor.
  - destruct (execute w q) as [e|r]; simpl; [repeat constructor|].
    specialize (IH (acc ++ [group (fetchall r)])).
    destruct (run_plan w plan _) as [o t]. simpl in *. now constructor.
Qed.

Lemma run_parts_trace w p_out p_in : Forall is_execute (snd (run_parts w p_out p_in)).
Proof.
  unfold run_parts. pose proof (run_plan_trace w p_out []) as H1.
  destruct (run_plan w p_out []) as [[out|e] t1]; [|exact H1].
  pose proof (run_plan_trace w p_in out) as H2.
  destruct (run_plan w p_in out) as [o t2]. simpl in *. apply Forall_app. now split.
Qed.

(** X21. Once a connection is bound, no request changes the globals or
    attempts to connect: every database call a handler then makes is the
    execution of a query. *)
Theorem connected_requests_read_only (w : world) (r : request) (g : globals)
    (c : connection) :
  conn g = Some c ->
  (snd (fst (execute_query w r g)) = g
   /\ Forall is_execute (snd (execute_query w r g)))
  /\ get_node_types w g
     = (Response (results_labels (elements (node_types g))) 200, g, [])
  /\ (snd (fst (get_default_query w g)) = g /\ snd (get_default_query w g) = [])
  /\ (snd (fst (get_neighbors w r g)) = g
      /\ Forall is_execute (snd (get_neighbors w r g))).
Proof.
  intros Hc. pose proof (initialize_db_connected w g c Hc) as Hinit.
  split; [|split; [|split]].
  - destruct (body_error r) as [e|] eqn:Eb;
      [rewrite (execute_query_no_object w r g e Eb); split;
       [reflexivity | constructor]|].
    apply body_error_none in Eb as [data ->].
    destruct (truthy (data_get "query" data)) eqn:Hq.
    + rewrite execute_query_run, Hinit by assumption.
      destruct (data_get "query" data); simpl;
        (split; [reflexivity | repeat constructor]).
    + rewrite execute_query_invalid by assumption. split; [reflexivity | constructor].
  - now rewrite get_node_types_run, Hinit.
  - now rewrite get_default_query_run, Hinit.
  - destruct (body_error r) as [e|] eqn:Eb;
      [rewrite (get_neighbors_no_object w r g e Eb); split;
       [reflexivity | constructor]|].
    apply body_error_none in Eb as [data ->].
    destruct (truthy (data_get "label" data)) eqn:Hl;
      [destruct (truthy (data_get "id" data)) eqn:Hi|];
      try (rewrite get_neighbors_invalid by auto; split; [reflexivity | constructor]).
    rewrite get_neighbors_run, Hinit by assumption.
    destruct (guard_failure w _ _); [split; [reflexivity | constructor]|].
    match goal with
    | |- context [run_parts ?w' ?po ?pi] =>
        pose proof (run_parts_trace w' po pi) as H;
        destruct (run_parts w' po pi) as [o tr]
    end.
    simpl in *. split; [reflexivity | exact H].
Qed.

Lemma connected_requests_read_only_witness :
  let g := snd (fst (initialize_db world_clinic initial_globals)) in
  get_node_types world_no_drug_table g
  = (Response (results_labels (elements (node_types g))) 200, g, []).
Proof.
  cbv zeta.
  destruct (connected_requests_read_only world_no_drug_table (obj [])
              (snd (fst (initialize_db world_clinic initial_globals))) (Conn 1) eq_refl)
    as (_ & H & _).
  exact H.
Defined.

(** ** Order of the index *)

Lemma existsb_keys {V} (k : string) (m : dict V) :
  existsb (String.eqb k) (map fst m) = dict_mem k m.
Proof.
  unfold dict_mem. induction m as [|[k' v] m IH]; simpl; [reflexivity|].
  destruct (String.eqb k k'); simpl; [reflexivity | exact IH].
Qed.

Lemma add_once_keys {A} (same : A -> bool) (x : A) k m :
  map fst (add_once same x k m) = append_new (String.eqb k) k (map fst m).
Proof.
  unfold add_once, append_new. rewrite existsb_keys. unfold dict_mem.
  destruct (dict_get k m) as [existing|] eqn:E.
  - destruct (existsb same existing); [reflexivity|].
    rewrite dict_set_keys. unfold dict_mem. now rewrite E.
  - rewrite dict_set_keys. unfold dict_mem. now rewrite E.
Qed.

Lemma add_once_stored {A} (same : A -> bool) (x : A) k k' m :
  stored k' (add_once same x k m)
  = if String.eqb k k' then append_new same x (stored k' m) else stored k' m.
Proof.
  unfold stored, add_once, append_new.
  destruct (String.eqb_spec k k') as [<-|Hne].
  - destruct (dict_get k m) as [existing|] eqn:E.
    + destruct (existsb same existing) eqn:Hd; [now rewrite E|].
      now rewrite dict_get_set_eq.
    + now rewrite dict_get_set_eq.
  - destruct (dict_get k m) as [existing|] eqn:E.
    + destruct (existsb same existing); [reflexivity|].
      now rewrite dict_get_set_ne.
    + now rewrite dict_get_set_ne.
Qed.

Lemma populate_keys_fold rows g :
  map fst (outgoing_relations (populate rows g))
  = fold_left (fun keys row =>
                 match row with
                 | (Some s, Some _, Some _) => append_new (String.eqb s) s keys
                 | _ => keys
                 end) rows (map fst (outgoing_relations g))
  /\ map fst (incoming_relations (populate rows g))
     = fold_left (fun keys row =>
                    match row with
                    | (Some _, Some d, Some _) => append_new (String.eqb d) d keys
                    | _ => keys
                    end) rows (map fst (incoming_relations g)).
Proof.
  revert g. induction rows as [|row rows IH]; intros g; [now split|].
  rewrite populate_cons. destruct (IH (index_row row g)) as [-> ->].
  destruct row as [[[s|] [d|]] [r|]]; simpl; try (now split).
  now rewrite add_outgoing_add_once, add_incoming_add_once, !add_once_keys.
Qed.

Lemma populate_stored_fold rows g k :
  stored k (outgoing_relations (populate rows g))
  = fold_left (fun l row =>
                 match row with
                 | (Some s, Some d, Some r) =>
                     if String.eqb s k then append_new (same_out r d) (OutRel r d) l
                     else l
                 | _ => l
                 end) rows (stored k (outgoing_relations g))
  /\ stored k (incoming_relations (populate rows g))
     = fold_left (fun l row =>
                    match row with
                    | (Some s, Some d, Some r) =>
                        if String.eqb d k then append_new (same_in r s) (InRel r s) l
                        else l
                    | _ => l
                    end) rows (stored k (incoming_relations g)).
Proof.
  revert g. induction rows as [|row rows IH]; intros g; [now split|].
  rewrite populate_cons. destruct (IH (index_row row g)) as [-> ->].
  destruct row as [[[s|] [d|]] [r|]]; simpl; try (now split).
  now rewrite add_outgoing_add_once, add_incoming_add_once, !add_once_stored.
Qed.

(** X25. The built maps list their keys in the order in which the labels
    first appear as source, resp. destination, of a complete row, and under
    each key the descriptors in the order in which they first appear for
    that key; a label that never appears has no entry. *)
Theorem build_index_order (ss ds rs : list cell) (g : globals) :
  let rows := zip3 ss ds rs in
  let g' := build_index ss ds rs g in
  map fst (outgoing_relations g') = sources_in_order rows
  /\ map fst (incoming_relations g') = destinations_in_order rows
  /\ (forall k, stored k (outgoing_relations g') = outgoing_in_order k rows)
  /\ (forall k, stored k (incoming_relations g') = incoming_in_order k rows).
Proof.
  cbv zeta. unfold build_index.
  destruct (populate_keys_fold (zip3 ss ds rs) (clear_relations g)) as [-> ->].
  split; [reflexivity|]. split; [reflexivity|].
  split; intros k;
    destruct (populate_stored_fold (zip3 ss ds rs) (clear_relations g) k) as [Ho Hi];
    [exact Ho | exact Hi].
Qed.

(** ** Catalog results of different lengths *)

Lemma zip3_firstn ss :
  forall ds rs,
    let n := Nat.min (length ss) (Nat.min (length ds) (length rs)) in
    zip3 ss ds rs = zip3 (firstn n ss) (firstn n ds) (firstn n rs)
    /\ length (zip3 ss ds rs) = n.
Proof.
  induction ss as [|s ss IH]; intros [|d ds] [|r rs]; simpl; auto.
  destruct (IH ds rs) as [Hz Hl]. split; [now f_equal | now f_equal].
Qed.

(** X26. The loop of line 110 reads as many rows as the shortest of the
    three catalog results has; what the longer ones hold beyond that is
    ignored. *)
Theorem build_index_truncates (ss ds rs : list cell) (g : globals) :
  let n := Nat.min (length ss) (Nat.min (length ds) (length rs)) in
  length (zip3 ss ds rs) = n
  /\ build_index ss ds rs g
     = build_index (firstn n ss) (firstn n ds) (firstn n rs) g.
Proof.
  cbv zeta. destruct (zip3_firstn ss ds rs) as [Hz Hl].
  split; [exact Hl|]. unfold build_index. now rewrite <- Hz.
Qed.

(** ** Choosing the database file *)



(** ** The embedding function *)

Lemma replace_newlines_get text i :
  String.get i (replace_newlines text) <> Some (Ascii.ascii_of_nat 10).
Proof.
  revert i. induction text as [|ch text IH]; intros i; simpl; [now destruct i|].
  destruct i as [|i]; [|apply IH].
  destruct (Ascii.eqb_spec ch (Ascii.ascii_of_nat 10)) as [->|Hne]; [discriminate|].
  congruence.
Qed.


(** ** Closing the connection *)

(** X24. [cleanup] calls [close] on the bound connection, once, and on
    nothing when none is bound; whether or not [close] raises it leaves the
    globals as they are, [conn] included, so that [initialize_db] afterwards
    still hands out the closed connection without connecting again. *)
Theorem cleanup_keeps_connection (close : connection -> option exn) (g : globals) :
  fst (fst (cleanup close g)) = g
  /\ (forall c, conn g = Some c ->
                snd (fst (cleanup close g)) = [c]
                /\ forall w, initialize_db w (fst (fst (cleanup close g)))
                             = (Returned c, g, []))
  /\ (conn g = None -> cleanup close g = (g, [], [])).
Proof.
  assert (fst (fst (cleanup close g)) = g) as Hg
      by (unfold cleanup; destruct (conn g) as [c|]; [destruct (close c)|]; reflexivity).
  split; [exact Hg|]. split.
  - intros c Hc. split.
    + unfold cleanup. rewrite Hc. now destruct (close c).
    + intros w. rewrite Hg. now apply initialize_db_connected.
  - intros Hn. unfold cleanup. now rewrite Hn.
Qed.

Lemma cleanup_keeps_connection_witness :
  let g := snd (fst (initialize_db world_clinic initial_globals)) in
  snd (fst (cleanup (fun _ => Some "Connection already closed") g)) = [Conn 1]
  /\ initialize_db world_clinic
       (fst (fst (cleanup (fun _ => Some "Connection already closed") g)))
     = (Returned (Conn 1), g, []).
Proof.
  cbv zeta.
  destruct (cleanup_keeps_connection (fun _ => Some "Connection already closed")
              (snd (fst (initialize_db world_clinic initial_globals)))) as (_ & H & _).
  destruct (H (Conn 1) eq_refl) as [Hclose Hinit].
  split; [exact Hclose | apply Hinit].
Defined.

(** ** Instances *)

(** A query that is not a string never reaches the database: [execute]
    raises on the argument and the answer is the error of line 190. *)
Lemma execute_query_number :
  execute_query world_clinic (obj [("query", JInt 5)]) initial_globals
  = (Response (error "Error executing query: Please provide either a DuckDBPyStatement or a string representing the query")
       500,
     snd (fst (initialize_db world_clinic initial_globals)), [Connect 0]).
Proof. reflexivity. Qed.

(** A row with a BLOB: the query runs, [jsonify] at line 186 raises and the
    answer is the error of line 190. *)
Lemma run_query_blob :
  execute_query world_blob
    (obj [("query", JStr "SELECT name, image FROM Drug")]) initial_globals
  = (Response (error "Error executing query: Object of type bytes is not JSON serializable")
       500,
     snd (fst (initialize_db world_blob initial_globals)),
     [Connect 0; Execute "SELECT name, image FROM Drug"]).
Proof. reflexivity. Qed.

(** The items of a row are written by sorted key, so of two refused values
    the one under the smaller key is reported. *)
Lemma jsonify_rows_sorted :
  first_refused (rows_cells [[("taken", VOther "timedelta"); ("image", VOther "bytes")]])
  = Some "bytes".
Proof. reflexivity. Qed.

(** A neighbour whose row holds a BLOB: the query runs, [jsonify] at line
    319 raises and the answer is the error of line 322. *)
Lemma neighbors_blob :
  get_neighbors world_blob
    (obj [("label", JStr "Patient"); ("id", JInt 42); ("direction", JStr "outgoing")])
    initial_globals
  = (Response (error "Error executing query: Object of type bytes is not JSON serializable")
       500,
     snd (fst (initialize_db world_blob initial_globals)),
     [Connect 0; Execute (outgoing_query "drug_graph" "Patient" "42" "TAKES" "Drug")]).
Proof. reflexivity. Qed.


Lemma build_index_exact_witness :
  has_incoming
    (build_index [Some "Patient"] [Some "Drug"] [Some "TAKES"] initial_globals)
    "Drug" "TAKES" "Patient".
Proof.
  apply (build_index_exact [Some "Patient"] [Some "Drug"] [Some "TAKES"]
           initial_globals "Patient" "Drug" "TAKES").
  simpl. left. reflexivity.
Defined.

Lemma build_index_mirror_witness :
  has_incoming
    (build_index [Some "Patient"] [Some "Drug"] [Some "TAKES"] initial_globals)
    "Drug" "TAKES" "Patient".
Proof.
  apply (build_index_mirror [Some "Patient"] [Some "Drug"] [Some "TAKES"]
           initial_globals "Patient" "Drug" "TAKES").
  exists [OutRel "TAKES" "Drug"]. split; [reflexivity | now left].
Defined.

Lemma build_index_labels_witness :
  "Drug" ∈ node_types
    (build_index [Some "Patient"] [Some "Drug"] [Some "TAKES"] initial_globals).
Proof.
  apply (build_index_labels [Some "Patient"] [Some "Drug"] [Some "TAKES"]
           initial_globals "Drug").
  right. exists "Patient", "Drug", "TAKES". split; [simpl; now left | now right].
Defined.
